(** * cmd/trade-client: the one-shot trading client

    A shallow embedding of [src/cmd/trade-client/main.go].

    - Sequential code ([checkCliArgs], [NewTradeApp], the four mode
      functions) is embedded as functions; code that logs or calls the
      collaborator runs in a small state monad over the [World].
    - The concurrent part ([main]'s select, the [run] goroutine and the
      callbacks the collaborator invokes) is embedded as a labelled step
      function over a [State] holding the program counters of the two
      goroutines and the three channels.
    - The packages [websocket], [common] and [config] are not part of the
      program: their types and constants are the fields of [Packages], in
      which the development is parametric, and their functions are the
      fields of [Env] and [Session]. *)

From Stdlib Require Import ZArith List String Bool Lia PeanoNat.
Import ListNotations.
Local Open Scope string_scope.
Local Open Scope list_scope.
Local Open Scope Z_scope.

(** ** Errors *)

(** A Go [error] value that is not nil.  [err == errUnknownMode] in the
    source is identity with the package variable of line 23, so that
    variable has a constructor of its own; [Canceled] is
    [context.Canceled], the value of [ctx.Err()] once [cancel()] was
    called; every other error is a message. *)
Inductive error : Type :=
| errUnknownMode
| Canceled
| errorString (msg : string).

(** The Go interface value: [None] is nil. *)
Definition goerror : Type := option error.

Definition is_errUnknownMode (e : error) : bool :=
  match e with errUnknownMode => true | _ => false end.

(** ** Command-line arguments (lines 298-325) *)

Record cliArgs : Type := mkArgs {
  Verbose : bool;
  Mode : string;
  MarketID : Z;                 (* a Go [int]; only compared with 0 *)
  ExchAPIKey : string;
  ExchSecretKey : string;
  OrderID : string
}.

Definition checkCliArgs (a : cliArgs) : goerror :=
  if (Mode a =? "")%string then Some (errorString "mode is not specified")
  else if negb (Mode a =? "place")%string && negb (Mode a =? "cancel")%string
          && negb (Mode a =? "list")%string && negb (Mode a =? "balances")%string
  then Some errUnknownMode
  else if (MarketID a =? 0)%Z then Some (errorString "marketid is empty")
  else if (Mode a =? "cancel")%string && (OrderID a =? "")%string
  then Some (errorString "orderid is empty")
  else None.

(** The modes the specification lists. *)
Definition known_modes : list string := ["list"; "balances"; "place"; "cancel"].


(** ** What the program imports

    The packages [common], [websocket] and [config] are declared outside
    this program.  [Packages] lists the types and constants of theirs that
    [main.go] names; the development is parametric in it. *)
Record Packages : Type := {
  (** [common.PrivateOrder], of which the program reads the field [ID]
      (line 227) *)
  Order : Type;
  Order_ID : Order -> string;
  (** the result type of [GetBalances] *)
  Balances : Type;
  (** [websocket.ConnState] and the table [websocket.ConnStateNames] *)
  ConnState : Type;
  ConnStateNames : ConnState -> string;
  (** the element type of [SubscriptionResult.Failed] *)
  SubscribeError : Type;
  (** [common.MarketID] and the conversion [common.MarketID(n)] of an
      [int] at line 108 *)
  MarketIDType : Type;
  common_MarketID : Z -> MarketIDType;
  (** the enumerations of [common] and the constants used at lines 262-269 *)
  PriceParamType : Type;
  AbsoluteValuePrice : PriceParamType;
  OrderSide : Type;
  OrderSideBuy : OrderSide;
  OrderType : Type;
  LimitOrder : OrderType
}.
Existing Class Packages.

Section TradeClient.

Context {lib : Packages}.

Record PriceParam : Type := {
  pp_Type : PriceParamType lib;
  pp_Value : string
}.

Record PlaceOrderParams : Type := {
  po_PriceParams : list PriceParam;
  po_MarketID : MarketIDType lib;
  po_Amount : string;
  po_OrderSide : OrderSide lib;
  po_OrderType : OrderType lib
}.

Record CancelOrderParams : Type := {
  co_MarketID : MarketIDType lib;
  co_OrderID : string
}.

(** *** Logging and the other observable effects *)

(** An argument handed to the [log] package. *)
Inductive Value : Type :=
| VString (s : string)
| VStrings (l : list string)
| VErr (e : goerror)
| VOrder (o : Order lib)
| VBalances (b : Balances lib)
| VFailed (l : list (SubscribeError lib)).

(** A call of the [log] package: the function and what it was given.
    [Fatalf] prints like [Printf] and then calls [os.Exit(1)]. *)
Inductive LogCall : Type :=
| Print (args : list Value)
| Println (args : list Value)
| Printf (format : string) (args : list Value)
| Fatalf (format : string) (args : list Value).

(** A method of the trade client called by the program. *)
Inductive Call : Type :=
| CConnect
| CGetOrders (marketID : MarketIDType lib)
| CGetBalances
| CPlaceOrder (p : PlaceOrderParams)
| CCancelOrder (p : CancelOrderParams)
| CClose.

Inductive ChanId : Type := ChErr | ChLastErr | ChReady.

(** The functions of the program that send on a channel: [run], and the
    handlers registered at lines 176, 147 and 186. *)
Inductive Writer : Type := ByRun | ByOnReady | ByOnErrorVerbose | ByOnError.

(** The result of a send statement [ch <- v]: it went through at once, or
    the sending goroutine is parked on the channel. *)
Inductive SendResult : Type := Sent | Blocked.

(** The branch the switch of [run] takes (lines 202-213). *)
Inductive Branch : Type := BList | BBalances | BPlace | BCancel | BDefault.

(** What the program does, in the order it does it.  [ALog] carries the
    logger flags in force when the line was printed.  The last four are
    bookkeeping: the statement executed, with nothing printed. *)
Inductive Action : Type :=
| ALog (flags : Z) (c : LogCall)
| AUsage                                     (* flag.PrintDefaults() *)
| ACall (c : Call)
| ACancel                                    (* cancel() *)
| ASend (who : Writer) (ch : ChanId) (v : goerror) (r : SendResult)
| ARecv (ch : ChanId) (v : goerror)
| ADispatch (b : Branch).

(** The logger's flags and the history of actions, oldest first. *)
Record World : Type := mkWorld {
  logFlags : Z;
  hist : list Action
}.

(** [log.LstdFlags = Ldate | Ltime = 3], the flags of the standard logger
    when the program starts. *)
Definition LstdFlags : Z := 3.

Definition initial_world : World := {| logFlags := LstdFlags; hist := [] |}.

(** *** A state monad over the world *)

Definition M (A : Type) : Type := World -> A * World.

Definition ret {A : Type} (a : A) : M A := fun w => (a, w).

Definition bind {A B : Type} (m : M A) (k : A -> M B) : M B :=
  fun w => let (a, w') := m w in k a w'.

Notation "x <- m ;; k" := (bind m (fun x => k))
  (at level 61, m at next level, right associativity).
Notation "m ;;; k" := (bind m (fun _ => k))
  (at level 61, right associativity).

Definition emit (a : Action) : M unit :=
  fun w => (tt, {| logFlags := logFlags w; hist := hist w ++ [a] |}).

Definition log_call (c : LogCall) : M unit :=
  fun w => emit (ALog (logFlags w) c) w.

Definition log_Print (args : list Value) : M unit := log_call (Print args).
Definition log_Println (args : list Value) : M unit := log_call (Println args).
Definition log_Printf (f : string) (args : list Value) : M unit :=
  log_call (Printf f args).
Definition log_Fatalf (f : string) (args : list Value) : M unit :=
  log_call (Fatalf f args).

Definition log_Flags : M Z := fun w => (logFlags w, w).

Definition log_SetFlags (f : Z) : M unit :=
  fun w => (tt, {| logFlags := f; hist := hist w |}).

(** *** The collaborator *)

(** The answers of the trade client to the calls of the program.  A Go
    function returning [(x, err)] is a pair; the program looks at [x] only
    when [err] is nil. *)
Record Session : Type := {
  GetOrders : MarketIDType lib -> list (Order lib) * goerror;
  GetBalances : Balances lib * goerror;
  PlaceOrder : PlaceOrderParams -> Order lib * goerror;
  CancelOrder : CancelOrderParams -> goerror;
  Close : goerror
}.

Record TradeApp : Type := {
  marketID : MarketIDType lib;
  args : cliArgs;
  client : Session
}.

(** *** The four modes (lines 217-296) *)

Definition TradeApp_list (app : TradeApp) : M goerror :=
  log_Println [VString "Trading ready: getting orders..."] ;;;
  emit (ACall (CGetOrders (marketID app))) ;;;
  let (orders, err) := GetOrders (client app) (marketID app) in
  match err with
  | Some e => ret (Some e)
  | None =>
      let oids := map (Order_ID lib) orders in
      log_Println [VString "Orders:"; VStrings oids] ;;;
      ret None
  end.

Definition TradeApp_balances (app : TradeApp) : M goerror :=
  log_Println [VString "Getting balances..."] ;;;
  emit (ACall CGetBalances) ;;;
  let (result, err) := GetBalances (client app) in
  match err with
  | Some e =>
      log_Println [VString "ERROR: GetBalances()"; VErr (Some e)] ;;;
      ret (Some e)
  | None =>
      lf <- log_Flags ;;
      log_SetFlags 0 ;;;
      log_Printf "balances=%v" [VBalances result] ;;;
      log_SetFlags lf ;;;
      log_Println [VString "Balances:"; VString "done"] ;;;
      ret None
  end.

(** The composite literal of lines 259-270. *)
Definition place_params (app : TradeApp) : PlaceOrderParams :=
  {| po_PriceParams :=
       [ {| pp_Type := AbsoluteValuePrice lib; pp_Value := "0.01" |} ];
     po_MarketID := marketID app;
     po_Amount := "0.01";
     po_OrderSide := OrderSideBuy lib;
     po_OrderType := LimitOrder lib |}.

Definition TradeApp_place (app : TradeApp) : M goerror :=
  log_Println [VString "Trading ready: placing order..."] ;;;
  emit (ACall (CPlaceOrder (place_params app))) ;;;
  let (order, err) := PlaceOrder (client app) (place_params app) in
  match err with
  | Some e => ret (Some e)
  | None =>
      log_Println [VString "Order placed:"; VOrder order] ;;;
      ret None
  end.

Definition cancel_params (app : TradeApp) : CancelOrderParams :=
  {| co_MarketID := marketID app; co_OrderID := OrderID (args app) |}.

Definition TradeApp_cancel (app : TradeApp) : M goerror :=
  log_Println [VString "Trading ready: canceling order..."] ;;;
  emit (ACall (CCancelOrder (cancel_params app))) ;;;
  let err := CancelOrder (client app) (cancel_params app) in
  match err with
  | Some e => ret (Some e)
  | None =>
      log_Println [VString "Order canceled:"; VString (OrderID (args app))] ;;;
      ret None
  end.

(** The switch of [run] (lines 202-213): the branch chosen, and the value
    that branch sends to [errChan]. *)
Definition mode_branch (mode : string) : Branch :=
  if (mode =? "list")%string then BList
  else if (mode =? "balances")%string then BBalances
  else if (mode =? "place")%string then BPlace
  else if (mode =? "cancel")%string then BCancel
  else BDefault.

Definition dispatch (app : TradeApp) : M goerror :=
  let b := mode_branch (Mode (args app)) in
  emit (ADispatch b) ;;;
  match b with
  | BList => TradeApp_list app
  | BBalances => TradeApp_balances app
  | BPlace => TradeApp_place app
  | BCancel => TradeApp_cancel app
  | BDefault => ret (Some errUnknownMode)
  end.

(** ** Construction of the application (lines 48-67, 107-193) *)

Record CWConfig : Type := {
  cfg_APIKey : string;
  cfg_SecretKey : string;
  cfg_TradeURL : string
}.

Record WSParams : Type := {
  ws_APIKey : string;
  ws_SecretKey : string;
  ws_URL : string
}.

Record ExchangeAuth : Type := {
  ea_APIKey : string;
  ea_APISecret : string
}.

Record TradeSessionParams : Type := {
  ts_MarketID : MarketIDType lib;        (* MarketParams{ID: marketID} *)
  ts_ExchangeAuth : ExchangeAuth
}.

Record TradeClientParams : Type := {
  tc_WSParams : WSParams;
  tc_TradeSessions : list TradeSessionParams
}.

(** The functions of [config] and [websocket] that [main] and
    [NewTradeApp] call. *)
Record Env : Type := {
  config_NewFromPath : string -> CWConfig * goerror;
  config_Get : CWConfig;
  websocket_NewTradeClient : TradeClientParams -> Session * goerror
}.

Definition trade_client_params (a : cliArgs) (cfg : CWConfig)
  : TradeClientParams :=
  {| tc_WSParams := {| ws_APIKey := cfg_APIKey cfg;
                       ws_SecretKey := cfg_SecretKey cfg;
                       ws_URL := cfg_TradeURL cfg |};
     tc_TradeSessions :=
       [ {| ts_MarketID := common_MarketID lib (MarketID a);
            ts_ExchangeAuth := {| ea_APIKey := ExchAPIKey a;
                                  ea_APISecret := ExchSecretKey a |} |} ] |}.

(** [NewTradeApp] returns the application or the error of
    [NewTradeClient].  The channels it makes are part of the [State]
    below; the handlers it registers are the callback events. *)
Definition NewTradeApp (env : Env) (a : cliArgs) (cfg : CWConfig)
  : error + TradeApp :=
  let (tc, err) := websocket_NewTradeClient env (trade_client_params a cfg) in
  match err with
  | Some e => inl e
  | None => inr {| marketID := common_MarketID lib (MarketID a);
                   args := a;
                   client := tc |}
  end.

(** ** Channels *)

(** A Go channel: its capacity, the buffered values (oldest first) and
    the values of the goroutines parked in a send (oldest first).  Every
    send statement of the program is the last statement of its function,
    so a parked sender is fully described by the value it holds. *)
Record Chan (A : Type) : Type := mkChan {
  cap : nat;
  buf : list A;
  sendq : list A
}.
Arguments mkChan {A} _ _ _.
Arguments cap {A} _.
Arguments buf {A} _.
Arguments sendq {A} _.

Definition make_chan (A : Type) (n : nat) : Chan A := mkChan n [] [].

(** [ch <- v]: into the buffer when there is room, parked otherwise. *)
Definition chan_send {A : Type} (c : Chan A) (v : A) : Chan A * SendResult :=
  if (List.length (buf c) <? cap c)%nat
  then (mkChan (cap c) (buf c ++ [v]) (sendq c), Sent)
  else (mkChan (cap c) (buf c) (sendq c ++ [v]), Blocked).

(** A receive that can proceed: the oldest buffered value, the buffer
    being refilled from the oldest parked sender (who is thereby
    released); on an empty buffer, the value of the oldest parked sender
    directly.  [None] when nothing can be received. *)
Definition chan_recv {A : Type} (c : Chan A) : option (A * Chan A) :=
  match buf c with
  | x :: b =>
      match sendq c with
      | [] => Some (x, mkChan (cap c) b [])
      | y :: q => Some (x, mkChan (cap c) (b ++ [y]) q)
      end
  | [] =>
      match sendq c with
      | y :: q => Some (y, mkChan (cap c) [] q)
      | [] => None
      end
  end.

(** ** The running program *)

(** Where [main] is after line 75: at the select of line 77, at line 92,
    or gone with an exit status. *)
Inductive MainPC : Type := MSelect | MClosing | MExited (code : Z).

(** Where the goroutine [run] is: before line 196; about to evaluate the
    select of line 198; waiting in that select, no case of which could
    proceed when it was evaluated; past the receive of line 201, before
    the switch; holding the value it is about to send to [errChan]; past
    its send statement. *)
Inductive RunPC : Type :=
| RStart
| RSelect
| RParked
| RReady
| RSending (v : goerror)
| RDone.

Record State : Type := mkState {
  world : World;
  main_pc : MainPC;
  run_pc : RunPC;
  ctx_done : bool;              (* cancel() was called *)
  signals : bool;               (* a signal sits in the channel of line 74 *)
  notifying : bool;             (* signal.Notify in force, signal.Stop not called *)
  errChan : Chan goerror;       (* make(chan error, 1), line 140 *)
  ready : Chan unit;            (* make(chan struct{}), line 139 *)
  lastErrChan : Chan goerror    (* make(chan error, 1), line 145 *)
}.

(** The state after line 75: [run] is spawned and has not started. *)
Definition initial_state (w : World) : State :=
  {| world := w; main_pc := MSelect; run_pc := RStart;
     ctx_done := false; signals := false; notifying := true;
     errChan := make_chan goerror 1;
     ready := make_chan unit 0;
     lastErrChan := make_chan goerror 1 |}.

Definition set_world (w : World) (s : State) : State :=
  mkState w (main_pc s) (run_pc s) (ctx_done s) (signals s) (notifying s)
          (errChan s) (ready s) (lastErrChan s).
Definition set_main_pc (p : MainPC) (s : State) : State :=
  mkState (world s) p (run_pc s) (ctx_done s) (signals s) (notifying s)
          (errChan s) (ready s) (lastErrChan s).
Definition set_run_pc (p : RunPC) (s : State) : State :=
  mkState (world s) (main_pc s) p (ctx_done s) (signals s) (notifying s)
          (errChan s) (ready s) (lastErrChan s).
Definition set_ctx_done (s : State) : State :=
  mkState (world s) (main_pc s) (run_pc s) true (signals s) (notifying s)
          (errChan s) (ready s) (lastErrChan s).
Definition set_signals (b : bool) (s : State) : State :=
  mkState (world s) (main_pc s) (run_pc s) (ctx_done s) b (notifying s)
          (errChan s) (ready s) (lastErrChan s).
Definition set_notifying (b : bool) (s : State) : State :=
  mkState (world s) (main_pc s) (run_pc s) (ctx_done s) (signals s) b
          (errChan s) (ready s) (lastErrChan s).
Definition set_errChan (c : Chan goerror) (s : State) : State :=
  mkState (world s) (main_pc s) (run_pc s) (ctx_done s) (signals s)
          (notifying s) c (ready s) (lastErrChan s).
Definition set_ready (c : Chan unit) (s : State) : State :=
  mkState (world s) (main_pc s) (run_pc s) (ctx_done s) (signals s)
          (notifying s) (errChan s) c (lastErrChan s).
Definition set_lastErrChan (c : Chan goerror) (s : State) : State :=
  mkState (world s) (main_pc s) (run_pc s) (ctx_done s) (signals s)
          (notifying s) (errChan s) (ready s) c.

(** Run a computation of the world monad in a state. *)
Definition exec_M {A : Type} (m : M A) (s : State) : A * State :=
  let (a, w) := m (world s) in (a, set_world w s).

Definition act (a : Action) (s : State) : State := snd (exec_M (emit a) s).
Definition logs (c : LogCall) (s : State) : State := snd (exec_M (log_call c) s).

(** A goroutine waiting in the select of line 198 is woken by the first
    case that can proceed and takes that case.  Woken by the closing of
    [ctx.Done()] it holds [ctx.Err()], to be sent to [errChan]. *)
Definition wake_done (p : RunPC) : RunPC :=
  match p with
  | RParked => RSending (Some Canceled)
  | _ => p
  end.

(** [cancel()]: the context is done from now on, and [run] is woken if
    it waits in its select. *)
Definition do_cancel (s : State) : State :=
  let s1 := act ACancel (set_ctx_done s) in
  set_run_pc (wake_done (run_pc s1)) s1.

(** *** The handlers registered by [NewTradeApp] *)

(** Lines 176-178.  The channel has no buffer: when [run] waits in its
    select the value is handed over and [run] takes the readiness case,
    otherwise the handler is parked. *)
Definition onReady (s : State) : State :=
  match run_pc s with
  | RParked =>
      set_run_pc RReady
        (act (ARecv ChReady None) (act (ASend ByOnReady ChReady None Sent) s))
  | _ =>
      let (c, r) := chan_send (ready s) tt in
      act (ASend ByOnReady ChReady None r) (set_ready c s)
  end.

(** Lines 180-184. *)
Definition onSubscriptionResult (failed : list (SubscribeError lib))
  (s : State) : State :=
  match failed with
  | [] => s
  | _ :: _ => logs (Println [VString "Subscription failed"; VFailed failed]) s
  end.

(** Lines 147-157, registered in verbose mode only. *)
Definition onErrorVerbose (mID : MarketIDType lib) (err : goerror)
  (disconnecting : bool) (s : State) : State :=
  if disconnecting then
    let (c, r) := chan_send (lastErrChan s) err in
    act (ASend ByOnErrorVerbose ChLastErr err r) (set_lastErrChan c s)
  else logs (Printf "Error: %s" [VErr err]) s.

(** Lines 186-190. *)
Definition onErrorOutcome (mID : MarketIDType lib) (err : goerror)
  (disconnecting : bool) (s : State) : State :=
  match err with
  | Some _ =>
      let (c, r) := chan_send (errChan s) err in
      act (ASend ByOnError ChErr err r) (set_errChan c s)
  | None => s
  end.

Definition state_line (oldState state : ConnState lib) : LogCall :=
  Printf "State updated: %s -> %s"
         [VString (ConnStateNames lib oldState); VString (ConnStateNames lib state)].

Definition state_line_err (oldState state : ConnState lib) (e : error) : LogCall :=
  Printf "State updated: %s -> %s: %s"
         [VString (ConnStateNames lib oldState); VString (ConnStateNames lib state);
          VErr (Some e)].

(** Lines 159-173, registered in verbose mode only: a select with a
    default case, so the receive never waits. *)
Definition onStateChange (oldState state : ConnState lib) (s : State) : State :=
  match chan_recv (lastErrChan s) with
  | Some (err, c) =>
      let s1 := act (ARecv ChLastErr err) (set_lastErrChan c s) in
      match err with
      | Some e => logs (state_line_err oldState state e) s1
      | None => logs (state_line oldState state) s1
      end
  | None => logs (state_line oldState state) s
  end.

(** *** The steps of [main] (lines 77-97) *)

(** [case <-signals] *)
Definition main_select_signal (s : State) : State :=
  set_main_pc MClosing (do_cancel (set_signals false s)).

(** [case err := <-app.errChan], having received [v]. *)
Definition main_select_err (v : goerror) (c : Chan goerror) (s : State) : State :=
  let s1 := do_cancel (act (ARecv ChErr v) (set_errChan c s)) in
  let s2 :=
    match v with
    | Some e =>
        let s' := logs (Printf "Error: %s" [VErr (Some e)]) s1 in
        if is_errUnknownMode e then act AUsage s' else s'
    | None => s1
    end in
  set_main_pc MClosing (set_notifying false s2).

(** Lines 92-97.  [log.Fatalf] leaves through [os.Exit(1)]; otherwise
    [main] returns, the deferred [cancel()] of line 70 runs and the
    status is 0. *)
Definition main_close (app : TradeApp) (s : State) : State :=
  let s1 := act (ACall CClose) (logs (Printf "Closing connection..." []) s) in
  match Close (client app) with
  | Some e =>
      set_main_pc (MExited 1)
        (logs (Fatalf "Failed to close connection: %s" [VErr (Some e)]) s1)
  | None => set_main_pc (MExited 0) (do_cancel s1)
  end.

(** *** The steps of [run] (lines 195-215) *)

Definition run_connect (s : State) : State :=
  set_run_pc RSelect (act (ACall CConnect) s).

(** [case <-ctx.Done()]: the operand [ctx.Err()] is [context.Canceled]. *)
Definition run_select_done (s : State) : State :=
  set_run_pc (RSending (Some Canceled)) s.

(** [case <-app.ready], a handler being parked in its send. *)
Definition run_select_ready (c : Chan unit) (s : State) : State :=
  set_run_pc RReady (act (ARecv ChReady None) (set_ready c s)).

(** No case can proceed: [run] waits. *)
Definition run_select_park (s : State) : State := set_run_pc RParked s.

(** The switch on the mode; its value is the operand of the send. *)
Definition run_dispatch (app : TradeApp) (s : State) : State :=
  let (v, s1) := exec_M (dispatch app) s in
  set_run_pc (RSending v) s1.

(** [app.errChan <- v] *)
Definition run_send (v : goerror) (s : State) : State :=
  let (c, r) := chan_send (errChan s) v in
  set_run_pc RDone (act (ASend ByRun ChErr v r) (set_errChan c s)).

(** *** Scheduling *)

(** One event: a step of [main], a step of [run], the delivery of a
    signal, or the collaborator invoking one registered handler.  The
    collaborator is free to invoke any handler at any time and with any
    arguments.  A step runs without interleaving: a handler up to its
    end, a goroutine from one channel operation up to the next.  The
    select of [run] has a waiting state of its own, because the case it
    takes is then decided by the first event.  For the select of [main],
    a hand-over to the waiting [main] is the send step (or the signal)
    followed by the receive step of [main]. *)
Inductive Event : Type :=
| EvSignal
| EvMainSelectSignal
| EvMainSelectErr
| EvMainClose
| EvRunConnect
| EvRunSelectDone
| EvRunSelectReady
| EvRunSelectPark
| EvRunDispatch
| EvRunSend
| CbReady
| CbSubscriptionResult (failed : list (SubscribeError lib))
| CbErrorVerbose (mID : MarketIDType lib) (err : goerror) (disconnecting : bool)
| CbErrorOutcome (mID : MarketIDType lib) (err : goerror) (disconnecting : bool)
| CbStateChange (oldState state : ConnState lib).

Definition alive (s : State) : bool :=
  match main_pc s with MExited _ => false | _ => true end.

(** The state after an event, or [None] when the event cannot happen in
    this state.  Nothing happens once the process has exited.  When [run]
    evaluates its select and both cases can proceed, both steps are
    enabled: Go picks one.  When none can, [run] waits, and the first of
    [cancel()] and [onReady] wakes it. *)
Definition step (app : TradeApp) (s : State) (ev : Event) : option State :=
  if negb (alive s) then None else
  match ev with
  | EvSignal =>
      if notifying s then Some (set_signals true s) else None
  | EvMainSelectSignal =>
      match main_pc s with
      | MSelect => if signals s then Some (main_select_signal s) else None
      | _ => None
      end
  | EvMainSelectErr =>
      match main_pc s with
      | MSelect =>
          match chan_recv (errChan s) with
          | Some (v, c) => Some (main_select_err v c s)
          | None => None
          end
      | _ => None
      end
  | EvMainClose =>
      match main_pc s with
      | MClosing => Some (main_close app s)
      | _ => None
      end
  | EvRunConnect =>
      match run_pc s with
      | RStart => Some (run_connect s)
      | _ => None
      end
  | EvRunSelectDone =>
      match run_pc s with
      | RSelect => if ctx_done s then Some (run_select_done s) else None
      | _ => None
      end
  | EvRunSelectReady =>
      match run_pc s with
      | RSelect =>
          match chan_recv (ready s) with
          | Some (_, c) => Some (run_select_ready c s)
          | None => None
          end
      | _ => None
      end
  | EvRunSelectPark =>
      match run_pc s with
      | RSelect =>
          match chan_recv (ready s) with
          | Some _ => None
          | None => if ctx_done s then None else Some (run_select_park s)
          end
      | _ => None
      end
  | EvRunDispatch =>
      match run_pc s with
      | RReady => Some (run_dispatch app s)
      | _ => None
      end
  | EvRunSend =>
      match run_pc s with
      | RSending v => Some (run_send v s)
      | _ => None
      end
  | CbReady => Some (onReady s)
  | CbSubscriptionResult failed => Some (onSubscriptionResult failed s)
  | CbErrorVerbose mID err disconnecting =>
      if Verbose (args app) then Some (onErrorVerbose mID err disconnecting s)
      else None
  | CbErrorOutcome mID err disconnecting =>
      Some (onErrorOutcome mID err disconnecting s)
  | CbStateChange oldState state =>
      if Verbose (args app) then Some (onStateChange oldState state s)
      else None
  end.

Fixpoint exec (app : TradeApp) (s : State) (schedule : list Event)
  : option State :=
  match schedule with
  | [] => Some s
  | ev :: rest =>
      match step app s ev with
      | Some s' => exec app s' rest
      | None => None
      end
  end.

(** *** [main] (lines 26-97) *)

(** Lines 43-75: leave with status 1, or reach the select with the
    application built and [run] spawned. *)
Inductive Started : Type :=
| Exit (w : World) (code : Z)
| Running (app : TradeApp) (s : State).

Definition fail_start (err : error) : Started :=
  Exit (snd (log_Print [VErr (Some err)] initial_world)) 1.

Definition startup (env : Env) (configPath : string) (a : cliArgs) : Started :=
  match checkCliArgs a with
  | Some err => fail_start err
  | None =>
      let (cfg, cfgErr) :=
        if (configPath =? "")%string then (config_Get env, None)
        else config_NewFromPath env configPath in
      match cfgErr with
      | Some err => fail_start err
      | None =>
          match NewTradeApp env a cfg with
          | inl err => fail_start err
          | inr app => Running app (initial_state initial_world)
          end
      end
  end.

Definition exit_status (s : State) : option Z :=
  match main_pc s with MExited code => Some code | _ => None end.

(** The program under a schedule: what it has done and, when it has
    exited, its status.  [None] when the schedule is not one the program
    can follow. *)
Definition main (env : Env) (configPath : string) (a : cliArgs)
  (schedule : list Event) : option (World * option Z) :=
  match startup env configPath a with
  | Exit w code =>
      match schedule with
      | [] => Some (w, Some code)
      | _ :: _ => None
      end
  | Running app s =>
      match exec app s schedule with
      | Some s' => Some (world s', exit_status s')
      | None => None
      end
  end.

(** ** Reading a history *)

Definition ChanId_eqb (a b : ChanId) : bool :=
  match a, b with
  | ChErr, ChErr | ChLastErr, ChLastErr | ChReady, ChReady => true
  | _, _ => false
  end.

(** The send statements executed on a channel, with their results. *)
Definition send_results (ch : ChanId) (h : list Action)
  : list (goerror * SendResult) :=
  flat_map (fun a => match a with
                     | ASend _ c v r => if ChanId_eqb c ch then [(v, r)] else []
                     | _ => []
                     end) h.

(** The values sent to a channel, in the order of the send statements. *)
Definition sends_on (ch : ChanId) (h : list Action) : list goerror :=
  map fst (send_results ch h).

(** The values received from a channel, in order. *)
Definition recvs_on (ch : ChanId) (h : list Action) : list goerror :=
  flat_map (fun a => match a with
                     | ARecv c v => if ChanId_eqb c ch then [v] else []
                     | _ => []
                     end) h.

(** The values [run] has sent, in order. *)
Definition sent_by_run (h : list Action) : list goerror :=
  flat_map (fun a => match a with ASend ByRun _ v _ => [v] | _ => [] end) h.

(** The executions of the switch of [run], with the branch taken. *)
Definition dispatches (h : list Action) : list Branch :=
  flat_map (fun a => match a with ADispatch b => [b] | _ => [] end) h.

(** The methods of the trade client called. *)
Definition calls (h : list Action) : list Call :=
  flat_map (fun a => match a with ACall c => [c] | _ => [] end) h.

(** The errors among a list of interface values. *)
Definition non_nil (l : list goerror) : list error :=
  flat_map (fun v => match v with Some e => [e] | None => [] end) l.

(** The error a state-change line is annotated with, for the lines
    printed by the first [log.Printf] of [onStateChange] (line 165). *)
Definition annotation (a : Action) : list error :=
  match a with
  | ALog _ (Printf f [VString _; VString _; VErr (Some e)]) =>
      if (f =? "State updated: %s -> %s: %s")%string then [e] else []
  | _ => []
  end.

Definition annotations (h : list Action) : list error := flat_map annotation h.

(** What a mode function may add to the history: [Println] lines, the
    balances line, and its own call of the trade client. *)
Definition mode_action (a : Action) : bool :=
  match a with
  | ALog _ (Println _) => true
  | ALog _ (Printf f _) => (f =? "balances=%v")%string
  | ACall (CGetOrders _) | ACall CGetBalances
  | ACall (CPlaceOrder _) | ACall (CCancelOrder _) => true
  | _ => false
  end.

(** Events that neither signal readiness, nor report an error to the
    outcome handler, nor deliver an operator signal. *)
Definition quiet (ev : Event) : bool :=
  match ev with
  | CbReady | EvSignal => false
  | CbErrorOutcome _ (Some _) _ => false
  | _ => true
  end.

(** The status [main_close] leaves with. *)
Definition close_status (app : TradeApp) : Z :=
  match Close (client app) with Some _ => 1 | None => 0 end.

(** ** The steps as a relation

    The same steps, one constructor per case of [step], each giving the
    actions added to the history and the new components of the state.
    [step_Step] below shows that every step of [step] is one of these;
    the invariants are proved by cases on this relation. *)

(** The state after adding [d] to the history, with the given program
    counters, flags and channels. *)
Definition next (s : State) (d : list Action) (mp : MainPC) (rp : RunPC)
  (cd sg nt : bool) (ec : Chan goerror) (rd : Chan unit) (le : Chan goerror)
  : State :=
  mkState {| logFlags := logFlags (world s); hist := hist (world s) ++ d |}
          mp rp cd sg nt ec rd le.

(** The lines of 82-87 for the received value. *)
Definition err_report (f : Z) (v : goerror) : list Action :=
  match v with
  | Some e =>
      ALog f (Printf "Error: %s" [VErr (Some e)])
      :: (if is_errUnknownMode e then [AUsage] else [])
  | None => []
  end.

(** The end of [main] for the result of [Close]. *)
Definition close_tail (f : Z) (r : goerror) : list Action :=
  match r with
  | Some e => [ALog f (Fatalf "Failed to close connection: %s" [VErr (Some e)])]
  | None => [ACancel]
  end.

Inductive Step (app : TradeApp) (s : State) : Event -> State -> Prop :=
| St_signal :
    notifying s = true ->
    Step app s EvSignal
      (next s [] (main_pc s) (run_pc s) (ctx_done s) true (notifying s)
            (errChan s) (ready s) (lastErrChan s))
| St_main_signal :
    main_pc s = MSelect -> signals s = true ->
    Step app s EvMainSelectSignal
      (next s [ACancel] MClosing (wake_done (run_pc s)) true false
            (notifying s) (errChan s) (ready s) (lastErrChan s))
| St_main_err v c :
    main_pc s = MSelect -> chan_recv (errChan s) = Some (v, c) ->
    Step app s EvMainSelectErr
      (next s (ARecv ChErr v :: ACancel :: err_report (logFlags (world s)) v)
            MClosing (wake_done (run_pc s)) true (signals s) false
            c (ready s) (lastErrChan s))
| St_main_close :
    main_pc s = MClosing ->
    Step app s EvMainClose
      (next s (ALog (logFlags (world s)) (Printf "Closing connection..." [])
               :: ACall CClose
               :: close_tail (logFlags (world s)) (Close (client app)))
            (MExited (close_status app))
            (match Close (client app) with
             | Some _ => run_pc s
             | None => wake_done (run_pc s)
             end)
            (match Close (client app) with
             | Some _ => ctx_done s
             | None => true
             end)
            (signals s) (notifying s) (errChan s) (ready s) (lastErrChan s))
| St_run_connect :
    run_pc s = RStart ->
    Step app s EvRunConnect
      (next s [ACall CConnect] (main_pc s) RSelect (ctx_done s) (signals s)
            (notifying s) (errChan s) (ready s) (lastErrChan s))
| St_run_done :
    run_pc s = RSelect -> ctx_done s = true ->
    Step app s EvRunSelectDone
      (next s [] (main_pc s) (RSending (Some Canceled)) (ctx_done s)
            (signals s) (notifying s) (errChan s) (ready s) (lastErrChan s))
| St_run_ready u c :
    run_pc s = RSelect -> chan_recv (ready s) = Some (u, c) ->
    Step app s EvRunSelectReady
      (next s [ARecv ChReady None] (main_pc s) RReady (ctx_done s)
            (signals s) (notifying s) (errChan s) c (lastErrChan s))
| St_run_park :
    run_pc s = RSelect -> chan_recv (ready s) = None -> ctx_done s = false ->
    Step app s EvRunSelectPark
      (next s [] (main_pc s) RParked (ctx_done s) (signals s) (notifying s)
            (errChan s) (ready s) (lastErrChan s))
| St_run_dispatch v d :
    run_pc s = RReady -> forallb mode_action d = true ->
    Step app s EvRunDispatch
      (next s ([ADispatch (mode_branch (Mode (args app)))] ++ d)
            (main_pc s) (RSending v) (ctx_done s) (signals s) (notifying s)
            (errChan s) (ready s) (lastErrChan s))
| St_run_send v c r :
    run_pc s = RSending v -> chan_send (errChan s) v = (c, r) ->
    Step app s EvRunSend
      (next s [ASend ByRun ChErr v r] (main_pc s) RDone (ctx_done s) (signals s)
            (notifying s) c (ready s) (lastErrChan s))
| St_on_ready_handoff :
    run_pc s = RParked ->
    Step app s CbReady
      (next s [ASend ByOnReady ChReady None Sent; ARecv ChReady None]
            (main_pc s) RReady (ctx_done s) (signals s) (notifying s)
            (errChan s) (ready s) (lastErrChan s))
| St_on_ready c r :
    run_pc s <> RParked -> chan_send (ready s) tt = (c, r) ->
    Step app s CbReady
      (next s [ASend ByOnReady ChReady None r] (main_pc s) (run_pc s)
            (ctx_done s) (signals s) (notifying s) (errChan s) c
            (lastErrChan s))
| St_on_subscription failed :
    Step app s (CbSubscriptionResult failed)
      (next s (match failed with
               | [] => []
               | _ :: _ =>
                   [ALog (logFlags (world s))
                         (Println [VString "Subscription failed"; VFailed failed])]
               end)
            (main_pc s) (run_pc s) (ctx_done s) (signals s) (notifying s)
            (errChan s) (ready s) (lastErrChan s))
| St_on_error_save mID err c r :
    Verbose (args app) = true -> chan_send (lastErrChan s) err = (c, r) ->
    Step app s (CbErrorVerbose mID err true)
      (next s [ASend ByOnErrorVerbose ChLastErr err r] (main_pc s) (run_pc s) (ctx_done s)
            (signals s) (notifying s) (errChan s) (ready s) c)
| St_on_error_print mID err :
    Verbose (args app) = true ->
    Step app s (CbErrorVerbose mID err false)
      (next s [ALog (logFlags (world s)) (Printf "Error: %s" [VErr err])]
            (main_pc s) (run_pc s) (ctx_done s) (signals s) (notifying s)
            (errChan s) (ready s) (lastErrChan s))
| St_on_error_outcome mID e disconnecting c r :
    chan_send (errChan s) (Some e) = (c, r) ->
    Step app s (CbErrorOutcome mID (Some e) disconnecting)
      (next s [ASend ByOnError ChErr (Some e) r] (main_pc s) (run_pc s) (ctx_done s)
            (signals s) (notifying s) c (ready s) (lastErrChan s))
| St_on_error_nil mID disconnecting :
    Step app s (CbErrorOutcome mID None disconnecting)
      (next s [] (main_pc s) (run_pc s) (ctx_done s) (signals s)
            (notifying s) (errChan s) (ready s) (lastErrChan s))
| St_on_state_err oldState state e c :
    Verbose (args app) = true ->
    chan_recv (lastErrChan s) = Some (Some e, c) ->
    Step app s (CbStateChange oldState state)
      (next s [ARecv ChLastErr (Some e);
               ALog (logFlags (world s)) (state_line_err oldState state e)]
            (main_pc s) (run_pc s) (ctx_done s) (signals s) (notifying s)
            (errChan s) (ready s) c)
| St_on_state_nil oldState state c :
    Verbose (args app) = true ->
    chan_recv (lastErrChan s) = Some (None, c) ->
    Step app s (CbStateChange oldState state)
      (next s [ARecv ChLastErr None;
               ALog (logFlags (world s)) (state_line oldState state)]
            (main_pc s) (run_pc s) (ctx_done s) (signals s) (notifying s)
            (errChan s) (ready s) c)
| St_on_state_plain oldState state :
    Verbose (args app) = true ->
    chan_recv (lastErrChan s) = None ->
    Step app s (CbStateChange oldState state)
      (next s [ALog (logFlags (world s)) (state_line oldState state)]
            (main_pc s) (run_pc s) (ctx_done s) (signals s) (notifying s)
            (errChan s) (ready s) (lastErrChan s)).

End TradeClient.

Arguments mkChan {A} _ _ _.
Arguments cap {A} _.
Arguments buf {A} _.
Arguments sendq {A} _.

(** ** Invariants of the running program *)

Section Invariants.

Context {lib : Packages}.

(** The values a channel holds, in the order they will be received. *)
Definition chan_values {A : Type} (c : Chan A) : list A := buf c ++ sendq c.

(** A sender is parked only while the buffer is full. *)
Definition chan_wf {A : Type} (c : Chan A) : Prop :=
  ((List.length (buf c) < cap c)%nat -> sendq c = []) /\
  (List.length (buf c) <= cap c)%nat.

(** The channels: their capacities, and every value sent is either
    received already or still in the channel, in the order of sending. *)
Record Inv_chan (s : State) : Prop := {
  inv_cap_err : cap (errChan s) = 1%nat;
  inv_cap_last : cap (lastErrChan s) = 1%nat;
  inv_wf_err : chan_wf (errChan s);
  inv_wf_last : chan_wf (lastErrChan s);
  inv_wf_ready : chan_wf (ready s);
  inv_err :
    sends_on ChErr (hist (world s)) =
    recvs_on ChErr (hist (world s)) ++ chan_values (errChan s);
  inv_last :
    sends_on ChLastErr (hist (world s)) =
    recvs_on ChLastErr (hist (world s)) ++ chan_values (lastErrChan s);
  inv_ready :
    List.length (sends_on ChReady (hist (world s))) =
    (List.length (recvs_on ChReady (hist (world s)))
     + List.length (chan_values (ready s)))%nat;
  inv_first :
    forall v r rest,
      send_results ChErr (hist (world s)) = (v, r) :: rest -> r = Sent
}.

(** [main]: it receives from [errChan] at most once, and only in its
    select; it leaves with the status [main_close] decides. *)
Record Inv_main (app : TradeApp) (s : State) : Prop := {
  inv_select :
    main_pc s = MSelect ->
    recvs_on ChErr (hist (world s)) = [] /\ ctx_done s = false;
  inv_once : (List.length (recvs_on ChErr (hist (world s))) <= 1)%nat;
  inv_exit : forall c, main_pc s = MExited c -> c = close_status app
}.

(** Every execution of the switch of [run] has a send on [ready]
    before it. *)
Definition gated (h : list Action) : Prop :=
  forall h1 b h2, h = h1 ++ ADispatch b :: h2 -> sends_on ChReady h1 <> [].

(** [run]: the switch is executed at most once, after the select, on
    the branch of the mode, and a send on [ready] comes before it. *)
Record Inv_run (app : TradeApp) (s : State) : Prop := {
  inv_waiting :
    run_pc s = RStart \/ run_pc s = RSelect \/ run_pc s = RParked \/
    run_pc s = RReady ->
    dispatches (hist (world s)) = [];
  inv_received :
    run_pc s = RReady -> sends_on ChReady (hist (world s)) <> [];
  inv_single : (List.length (dispatches (hist (world s))) <= 1)%nat;
  inv_branch :
    forall b, In b (dispatches (hist (world s))) ->
              b = mode_branch (Mode (args app));
  inv_gate : gated (hist (world s));
  inv_unsent : run_pc s <> RDone -> sent_by_run (hist (world s)) = []
}.

(** The annotated state-change lines are the errors received from
    [lastErrChan]. *)
Definition Inv_annot (s : State) : Prop :=
  annotations (hist (world s)) = non_nil (recvs_on ChLastErr (hist (world s))).

Definition Inv (app : TradeApp) (s : State) : Prop :=
  Inv_chan s /\ Inv_main app s /\ Inv_run app s /\ Inv_annot s.

(** The end of [main]: as long as it has not exited it has neither
    called [Close] nor printed with [log.Fatalf]; an error it received
    was printed before any call of [Close]; and it exits through lines
    92-96. *)
Record Inv_closing (app : TradeApp) (s : State) : Prop := {
  inv_open :
    alive s = true ->
    ~ In (ACall CClose) (hist (world s)) /\
    forall f fmt l, ~ In (ALog f (Fatalf fmt l)) (hist (world s));
  inv_error_first :
    forall e,
      In (Some e) (recvs_on ChErr (hist (world s))) ->
      exists f h1 h2,
        hist (world s) = h1 ++ ALog f (Printf "Error: %s" [VErr (Some e)]) :: h2 /\
        ~ In (ACall CClose) h1;
  inv_closed :
    forall c,
      main_pc s = MExited c ->
      exists f h0,
        hist (world s) =
        h0 ++ ALog f (Printf "Closing connection..." [])
           :: ACall CClose :: close_tail f (Close (client app)) /\
        ~ In (ACall CClose) h0 /\
        forall f' fmt l, ~ In (ALog f' (Fatalf fmt l)) h0
}.

(** [run] has taken the cancellation case of its select: the switch was
    not executed, and [run] either holds [context.Canceled] and has sent
    nothing, or has sent [context.Canceled] and nothing else. *)
Definition cancelled_run (s : State) : Prop :=
  dispatches (hist (world s)) = [] /\
  (run_pc s = RSending (Some Canceled) /\ sent_by_run (hist (world s)) = [] \/
   run_pc s = RDone /\ sent_by_run (hist (world s)) = [Some Canceled]).

(** Nothing has happened that the two selects wait for: no signal, no
    cancellation, no readiness, nothing sent to [errChan]. *)
Definition idle (s : State) : Prop :=
  main_pc s = MSelect /\ signals s = false /\ ctx_done s = false /\
  chan_values (errChan s) = [] /\ chan_values (ready s) = [] /\
  send_results ChErr (hist (world s)) = [] /\
  recvs_on ChErr (hist (world s)) = [] /\
  (run_pc s = RStart \/ run_pc s = RSelect \/ run_pc s = RParked).

End Invariants.

(** ** A concrete collaborator

    One instance of the imported packages and of their answers, on which
    the examples below run the program. *)

Module Sample.

Inductive Conn : Type := Disconnected | Connecting | Authenticating | Established.

Definition ConnNames (s : Conn) : string :=
  match s with
  | Disconnected => "disconnected"
  | Connecting => "connecting"
  | Authenticating => "authenticating"
  | Established => "established"
  end.

Inductive Side : Type := Buy | Sell.
Inductive Kind : Type := Market | Limit.
Inductive PriceKind : Type := Absolute | Relative.

(** Orders are their identifiers, balances pair a currency with an
    amount. *)
#[export] Instance packages : Packages :=
  {| Order := string;
     Order_ID := fun o => o;
     Balances := list (string * string);
     ConnState := Conn;
     ConnStateNames := ConnNames;
     SubscribeError := string;
     MarketIDType := Z;
     common_MarketID := fun n => n;
     PriceParamType := PriceKind;
     AbsoluteValuePrice := Absolute;
     OrderSide := Side;
     OrderSideBuy := Buy;
     OrderType := Kind;
     LimitOrder := Limit |}.

(** A trade client answering [GetOrders] with the orders A1 and A2 and
    the given error, [PlaceOrder] with the order O1 and the given error,
    and [Close] with the given error. *)
Definition session (getErr placeErr closeErr : goerror) : Session :=
  @Build_Session packages
    (fun _ => (["A1"; "A2"], getErr))
    ([("btc", "1.5")], None)
    (fun _ => ("O1", placeErr))
    (fun _ => None)
    closeErr.

Definition default_config : CWConfig :=
  {| cfg_APIKey := "key"; cfg_SecretKey := "secret";
     cfg_TradeURL := "wss://trading.example" |}.

(** Configuration and construction of the client succeed. *)
Definition env (s : Session) : Env :=
  @Build_Env packages (fun _ => (default_config, None)) default_config
    (fun _ => (s, None)).

Definition list_args : cliArgs := mkArgs false "list" 1 "" "" "".
Definition verbose_args : cliArgs := mkArgs true "list" 1 "" "" "".
Definition bogus_args : cliArgs := mkArgs false "bogus" 1 "" "" "".

(** Connection, readiness, the command, its result received by [main],
    the connection closed. *)
Definition full_run : list Event :=
  [EvRunConnect; EvRunSelectPark; CbReady; EvRunDispatch; EvRunSend;
   EvMainSelectErr; EvMainClose].

(** An error reported by the trade client and received by [main], the
    connection closed. *)
Definition failed_session (e : error) : list Event :=
  [EvRunConnect; CbErrorOutcome 1 (Some e) true; EvMainSelectErr; EvMainClose].



(** An operator signal cancels the context after [run] has called
    [Connect] and before it reaches its select; the trade client signals
    readiness; [run] then evaluates its select with both cases able to
    proceed, and takes the readiness case. *)
Definition late_select : list Event :=
  [EvRunConnect; EvSignal; EvMainSelectSignal; CbReady; EvRunSelectReady;
   EvRunDispatch; EvRunSend].

(** An operator signal while [run] waits in its select: [run] is woken
    with the cancellation case, [main] closes the connection. *)
Definition interrupted : list Event :=
  [EvRunConnect; EvRunSelectPark; EvSignal; EvMainSelectSignal; EvRunSend;
   EvMainClose].

(** An operator signal before [run] evaluates its select, which then
    finds the context cancelled and no readiness pending. *)
Definition interrupted_early : list Event :=
  [EvRunConnect; EvSignal; EvMainSelectSignal; EvRunSelectDone; EvRunSend;
   EvMainClose].

(** The connection is attempted and drops again, with no error
    reported. *)
Definition quiet_close : list Event :=
  [EvRunConnect; EvRunSelectPark; CbStateChange Disconnected Connecting;
   CbStateChange Connecting Disconnected].

(** Two errors that disconnect, each followed by state changes; the
    first is also handed to the outcome handler. *)
Definition two_disconnects : list Event :=
  [EvRunConnect;
   CbErrorVerbose 1 (Some (errorString "timeout")) true;
   CbErrorOutcome 1 (Some (errorString "timeout")) true;
   CbStateChange Established Disconnected;
   CbStateChange Disconnected Connecting;
   CbErrorVerbose 1 (Some (errorString "refused")) true;
   CbStateChange Connecting Disconnected;
   CbStateChange Disconnected Connecting].

End Sample.

(** ** Further observations of a run *)

Section Observations.

Context {lib : Packages}.

(** The configuration [main] hands to [NewTradeApp] (lines 53-61): read
    from the file when a path was given, the default one otherwise. *)
Definition chosen_config (env : Env) (configPath : string) : CWConfig * goerror :=
  if (configPath =? "")%string then (config_Get env, None)
  else config_NewFromPath env configPath.

(** The call of the trade client the switch of [run] leads to, by the
    mode of the application (lines 202-213 with 220, 239, 259 and 284),
    and the error that call answers with. *)
Definition mode_call (app : TradeApp) : list Call :=
  match mode_branch (Mode (args app)) with
  | BList => [CGetOrders (marketID app)]
  | BBalances => [CGetBalances]
  | BPlace => [CPlaceOrder (place_params app)]
  | BCancel => [CCancelOrder (cancel_params app)]
  | BDefault => []
  end.

Definition mode_result (app : TradeApp) : goerror :=
  match mode_branch (Mode (args app)) with
  | BList => snd (GetOrders (client app) (marketID app))
  | BBalances => snd (GetBalances (client app))
  | BPlace => snd (PlaceOrder (client app) (place_params app))
  | BCancel => CancelOrder (client app) (cancel_params app)
  | BDefault => Some errUnknownMode
  end.

(** The line a mode function prints once its call has succeeded (lines
    230, 251, 276 and 293). *)
Definition success_line (a : Action) : bool :=
  match a with
  | ALog _ (Println (VString s :: _)) =>
      (s =? "Orders:")%string || (s =? "Balances:")%string
      || (s =? "Order placed:")%string || (s =? "Order canceled:")%string
  | _ => false
  end.

(** The errors printed on an "Error:" line (lines 83 and 156). *)
Definition error_line (a : Action) : list error :=
  match a with
  | ALog _ (Printf f [VErr (Some e)]) =>
      if (f =? "Error: %s")%string then [e] else []
  | _ => []
  end.

Definition error_lines (h : list Action) : list error := flat_map error_line h.

(** The call of [Connect] once [run] is past line 196, and the call of
    [Close] once [main] has exited. *)
Definition connect_calls (p : RunPC) : list Call :=
  match p with RStart => [] | _ => [CConnect] end.

Definition close_calls (p : MainPC) : list Call :=
  match p with MExited _ => [CClose] | _ => [] end.




(** A call of the trade client is the one the request asks for. *)
Definition requested (a : cliArgs) (c : Call) : Prop :=
  match c with
  | CConnect | CClose => True
  | CGetOrders m => Mode a = "list" /\ m = common_MarketID lib (MarketID a)
  | CGetBalances => Mode a = "balances"
  | CPlaceOrder p =>
      Mode a = "place" /\ po_MarketID p = common_MarketID lib (MarketID a)
  | CCancelOrder p =>
      Mode a = "cancel" /\ co_MarketID p = common_MarketID lib (MarketID a) /\
      co_OrderID p = OrderID a /\ OrderID a <> ""
  end.

(** The delivery of an operator signal while [main] waits in its select,
    followed by the steps [main] then takes: the signal case of line 78,
    and lines 92-97. *)
Definition interrupt_schedule : list Event :=
  [EvSignal; EvMainSelectSignal; EvMainClose].

(** The event hands the error variable of line 23 to the outcome handler. *)
Definition reports_unknown_mode (ev : Event) : bool :=
  match ev with
  | CbErrorOutcome _ (Some errUnknownMode) _ => true
  | _ => false
  end.

(** What the trade client reports along a schedule: the errors handed
    to the verbose handler as disconnecting, the errors handed to the
    outcome handler that are not nil, and the subscription results with
    a failure. *)
Definition saved_reports (tr : list Event) : list goerror :=
  flat_map (fun ev => match ev with
                      | CbErrorVerbose _ err true => [err]
                      | _ => []
                      end) tr.

Definition outcome_reports (tr : list Event) : list goerror :=
  flat_map (fun ev => match ev with
                      | CbErrorOutcome _ (Some e) _ => [Some e]
                      | _ => []
                      end) tr.

Definition failed_reports (tr : list Event) : list (list (SubscribeError lib)) :=
  flat_map (fun ev => match ev with
                      | CbSubscriptionResult (x :: l) => [x :: l]
                      | _ => []
                      end) tr.

(** What the handlers did with them: the values the outcome handler
    sent, and the "Subscription failed" lines. *)
Definition sent_by_on_error (h : list Action) : list goerror :=
  flat_map (fun a => match a with ASend ByOnError _ v _ => [v] | _ => [] end) h.

Definition subscription_line (a : Action) : list (list (SubscribeError lib)) :=
  match a with
  | ALog _ (Println [VString s; VFailed l]) =>
      if (s =? "Subscription failed")%string then [l] else []
  | _ => []
  end.

Definition subscription_lines (h : list Action)
  : list (list (SubscribeError lib)) :=
  flat_map subscription_line h.

(** The calls of the trade client: [Connect] first, then at most the call
    of the mode, then [Close] as [main] exits. *)
Definition Inv_calls (app : TradeApp) (s : State) : Prop :=
  calls (hist (world s)) =
  connect_calls (run_pc s)
  ++ flat_map (fun _ : Branch => mode_call app) (dispatches (hist (world s)))
  ++ close_calls (main_pc s).

(** What [run] holds for [errChan], and what it has sent: the
    cancellation error when it took the cancellation case, the answer to
    the call of the mode when it ran the switch. *)
Record Inv_outcome (app : TradeApp) (s : State) : Prop := {
  inv_holding :
    forall v, run_pc s = RSending v ->
      (dispatches (hist (world s)) = [] /\ v = Some Canceled /\
       ctx_done s = true) \/
      (dispatches (hist (world s)) <> [] /\ v = mode_result app);
  inv_sent :
    run_pc s = RDone ->
      (dispatches (hist (world s)) = [] /\
       sent_by_run (hist (world s)) = [Some Canceled] /\ ctx_done s = true) \/
      (dispatches (hist (world s)) <> [] /\
       sent_by_run (hist (world s)) = [mode_result app])
}.

(** [main] at its select listens for signals; without [--verbose] the
    "Error:" lines are those of [main]. *)
Record Inv_report (app : TradeApp) (s : State) : Prop := {
  inv_notifying : main_pc s = MSelect -> notifying s = true;
  inv_error_lines :
    Verbose (args app) = false ->
    error_lines (hist (world s)) = non_nil (recvs_on ChErr (hist (world s)))
}.

(** Nothing that reaches [errChan] is the error variable of line 23, and
    the usage was not printed. *)
Record Inv_usage (s : State) : Prop := {
  inv_no_usage : ~ In AUsage (hist (world s));
  inv_foreign_sent : ~ In (Some errUnknownMode) (sends_on ChErr (hist (world s)));
  inv_foreign_held : run_pc s <> RSending (Some errUnknownMode)
}.

End Observations.

(** Further inputs for the examples. *)
Module Cases.

Import Sample.

Definition cancel_args : cliArgs := mkArgs false "cancel" 1 "" "" "order-7".

(** A cancellation that goes through, its result received by [main]. *)
Definition cancel_run : list Event :=
  [EvRunConnect; EvRunSelectPark; CbReady; EvRunDispatch; EvRunSend;
   EvMainSelectErr; EvMainClose].

(** Readiness is signalled and the command has run; [run] is about to
    send its result. *)
Definition command_done : list Event :=
  [EvRunConnect; EvRunSelectPark; CbReady; EvRunDispatch].

(** [run] waits in its select. *)
Definition connected : list Event := [EvRunConnect; EvRunSelectPark].

(** [run] has received the readiness signal. *)
Definition made_ready : list Event := [EvRunConnect; EvRunSelectPark; CbReady].

(** An operator signal before [run] evaluates its select, which takes
    the cancellation case. *)
Definition cancelled_early : list Event :=
  [EvRunConnect; EvSignal; EvMainSelectSignal; EvRunSelectDone].

(** In verbose mode, an error that disconnects is saved. *)
Definition error_saved : list Event :=
  [EvRunConnect; CbErrorVerbose 1 (Some (errorString "timeout")) true].

Definition cancel_order_7 : CancelOrderParams :=
  @Build_CancelOrderParams packages 1 "order-7".


End Cases.

(** * The stream client

    A shallow embedding of [src/unnamed/part_000], the second program of
    the repository: it connects to the market stream, prints every state
    change and every message, and closes the connection on an operator
    interrupt.  The packages [net/url], [streamclient] and [proto] are
    not part of the program: their types and functions are the fields of
    [Imports] and [Env]. *)

Module StreamClient.

Record Imports : Type := {
  (** [streamclient.State] and the table [streamclient.StateNames] *)
  StreamState : Type;
  StateNames : StreamState -> string;
  (** [ProtobufMarkets.MarketUpdateMessage] and the two renderings of
      [proto] used at lines 84 and 86 *)
  MarketUpdateMessage : Type;
  MarshalTextString : MarketUpdateMessage -> string;
  CompactTextString : MarketUpdateMessage -> string
}.
Existing Class Imports.

(** The fields of [url.URL] the program reads. *)
Record URL : Type := {
  Scheme : string;
  Host : string;
  Path : string
}.

(** [streamclient.StreamParams], with the fields set at lines 55-61. *)
Record StreamParams : Type := {
  sp_Host : string;
  sp_Path : string;
  sp_NoTLS : bool;
  sp_Reconnect : bool;
  sp_ReconnectTimeout : Z;              (* a [time.Duration], in nanoseconds *)
  sp_Subscriptions : list string
}.

(** [time.Second] *)
Definition Second : Z := 1000000000.

(** The connection: the answer of its method [Close]. *)
Record MarketConn : Type := {
  Close : goerror
}.

(** [url.Parse] and [streamclient.NewMarketConn]. *)
Record Env : Type := {
  url_Parse : string -> URL * goerror;
  streamclient_NewMarketConn : StreamParams -> MarketConn * goerror
}.

(** The flags of lines 22-28: the subscription keys given with [-sub],
    in order, and [-detailed]. *)
Record Flags : Type := {
  subs : list string;
  detailed : bool
}.

Inductive Value : Type :=
| VString (s : string)
| VErr (e : goerror).

(** What the program does: a call of [fmt.Printf], a call of [log.Fatal]
    (which prints its arguments and leaves through [os.Exit(1)]), and the
    calls of [Connect] and [Close]. *)
Inductive Output : Type :=
| Printf (format : string) (args : list Value)
| Fatal (args : list Value)
| CallConnect
| CallClose.

Definition defaultURL : string := "wss://sb.cryptowat.ch".

(** The double quote, which the message of line 49 contains. *)
Definition quote : string := String (Ascii.ascii_of_nat 34) EmptyString.

Definition scheme_message : string :=
  ("the url should have " ++ quote ++ "ws" ++ quote ++ " or " ++ quote
   ++ "wss" ++ quote ++ " scheme")%string.

(** Lines 36-41: the first positional argument, when there is one. *)
Definition address (args : list string) : string :=
  match args with
  | [] => defaultURL
  | u :: _ => u
  end.

(** The composite literal of lines 53-63. *)
Definition stream_params (fl : Flags) (urlParsed : URL) : StreamParams :=
  {| sp_Host := Host urlParsed;
     sp_Path := Path urlParsed;
     sp_NoTLS := (Scheme urlParsed =? "ws")%string;
     sp_Reconnect := true;
     sp_ReconnectTimeout := 1 * Second;
     sp_Subscriptions := subs fl |}.

(** Lines 36-94: leave through [log.Fatal], or reach the receive of line
    98 with the connection set up and [Connect] called. *)
Inductive Started : Type :=
| Failed (out : list Output)
| Connected (c : MarketConn) (out : list Output).

Definition start (env : Env) (fl : Flags) (args : list string) : Started :=
  let u := address args in
  let (urlParsed, err) := url_Parse env u in
  match err with
  | Some e =>
      Failed [Fatal [VString "failed to parse address %s: %s"; VString u;
                     VErr (Some e)]]
  | None =>
      if negb (Scheme urlParsed =? "ws")%string
         && negb (Scheme urlParsed =? "wss")%string
      then Failed [Fatal [VString scheme_message]]
      else
        let (c, err) := streamclient_NewMarketConn env (stream_params fl urlParsed) in
        match err with
        | Some e => Failed [Fatal [VString "%s"; VErr (Some e)]]
        | None =>
            Connected c [Printf "Connecting to %s ...\n" [VString u]; CallConnect]
        end
  end.

Section Running.

Context {imp : Imports}.

(** The state listener of lines 69-78. *)
Definition on_state (oldState state : StreamState imp) (cause : goerror)
  : list Output :=
  Printf "State updated: %s -> %s"
         [VString (StateNames imp oldState); VString (StateNames imp state)]
  :: match cause with
     | Some _ => [Printf " (%s)" [VErr cause]]
     | None => []
     end
  ++ [Printf "\n" []].

(** The message listener of lines 81-90. *)
Definition on_message (fl : Flags) (msg : MarketUpdateMessage imp)
  : list Output :=
  let str := if detailed fl then MarshalTextString imp msg
             else CompactTextString imp msg in
  [Printf "Received message: %s\n\n" [VString str]].

(** Lines 99-101, up to the call of [Close]. *)
Definition closing : list Output :=
  [Printf "Closing connection...\n" []; CallClose].

(** Lines 101-103, once [Close] has returned. *)
Definition close_report (c : MarketConn) : list Output :=
  match Close c with
  | Some e => [Printf "Failed to close connection: %s" [VErr (Some e)]]
  | None => []
  end.

(** Where [main] is after line 94: at the receive of line 98, in the
    call of [Close], or returned with an exit status. *)
Inductive Where : Type := AtReceive | InClose | Returned (code : Z).

(** The running program: what it has done, whether a signal sits in the
    channel of line 32, and where [main] is. *)
Record Run : Type := mkRun {
  out : list Output;
  interrupt : bool;
  pc : Where
}.

(** The delivery of an interrupt signal; the receive of line 98 with
    the lines up to the call of [Close]; the return of [Close] with the
    rest of [main]; and the two listeners, which the connection may call
    at any time, also while [main] is in [Close]. *)
Inductive Event : Type :=
| EvInterrupt
| EvMainReceive
| EvMainReturn
| CbState (oldState state : StreamState imp) (cause : goerror)
| CbMessage (msg : MarketUpdateMessage imp).

(** Nothing happens once the process is gone; [main] gets past line 98
    only when a signal was delivered; it returns normally, with status
    0, whatever [Close] answered. *)
Definition step (fl : Flags) (c : MarketConn) (s : Run) (ev : Event)
  : option Run :=
  match pc s with
  | Returned _ => None
  | _ =>
      match ev with
      | EvInterrupt => Some (mkRun (out s) true (pc s))
      | EvMainReceive =>
          match pc s with
          | AtReceive =>
              if interrupt s
              then Some (mkRun (out s ++ closing) false InClose)
              else None
          | _ => None
          end
      | EvMainReturn =>
          match pc s with
          | InClose =>
              Some (mkRun (out s ++ close_report c) (interrupt s) (Returned 0))
          | _ => None
          end
      | CbState oldState state cause =>
          Some (mkRun (out s ++ on_state oldState state cause)
                      (interrupt s) (pc s))
      | CbMessage msg =>
          Some (mkRun (out s ++ on_message fl msg) (interrupt s) (pc s))
      end
  end.

Fixpoint exec (fl : Flags) (c : MarketConn) (s : Run) (schedule : list Event)
  : option Run :=
  match schedule with
  | [] => Some s
  | ev :: rest =>
      match step fl c s ev with
      | Some s' => exec fl c s' rest
      | None => None
      end
  end.

Definition status (s : Run) : option Z :=
  match pc s with Returned code => Some code | _ => None end.

(** The program under a schedule: what it has done and, when it is gone,
    its exit status; [None] when it cannot follow the schedule. *)
Definition main (env : Env) (fl : Flags) (args : list string)
  (schedule : list Event) : option (list Output * option Z) :=
  match start env fl args with
  | Failed o =>
      match schedule with
      | [] => Some (o, Some 1)
      | _ :: _ => None
      end
  | Connected c o =>
      match exec fl c (mkRun o false AtReceive) schedule with
      | Some s => Some (out s, status s)
      | None => None
      end
  end.

(** The calls of [Close] among the outputs. *)
Definition closes (o : list Output) : list Output :=
  filter (fun x => match x with CallClose => true | _ => false end) o.

(** [Close] is called once, as [main] gets past the receive, and its
    failure is printed before [main] returns, always with status 0. *)
Record Inv_stream (c : MarketConn) (s : Run) : Prop := {
  inv_at_receive : pc s = AtReceive -> closes (out s) = [];
  inv_in_close : pc s = InClose -> closes (out s) = [CallClose];
  inv_returned :
    forall code,
      pc s = Returned code ->
      code = 0 /\ closes (out s) = [CallClose] /\
      forall e,
        Close c = Some e ->
        In (Printf "Failed to close connection: %s" [VErr (Some e)]) (out s)
}.

End Running.

(** A concrete stream: two states, messages that are their own text, and
    a parser that knows three addresses. *)
Module Sample.

Inductive Conn : Type := Down | Up.

#[export] Instance imports : Imports :=
  {| StreamState := Conn;
     StateNames := fun s => match s with Down => "disconnected" | Up => "connected" end;
     MarketUpdateMessage := string;
     MarshalTextString := fun m => ("detailed: " ++ m)%string;
     CompactTextString := fun m => m |}.

Definition parse (u : string) : URL * goerror :=
  if (u =? "wss://sb.cryptowat.ch")%string
  then ({| Scheme := "wss"; Host := "sb.cryptowat.ch"; Path := "" |}, None)
  else if (u =? "ws://localhost:8080/feed")%string
  then ({| Scheme := "ws"; Host := "localhost:8080"; Path := "/feed" |}, None)
  else if (u =? "https://example.org")%string
  then ({| Scheme := "https"; Host := "example.org"; Path := "" |}, None)
  else ({| Scheme := ""; Host := ""; Path := "" |},
        Some (errorString "invalid URL")).

(** Every connection can be set up; [Close] answers with the given
    error. *)
Definition env (closeErr : goerror) : Env :=
  {| url_Parse := parse;
     streamclient_NewMarketConn := fun _ => ({| Close := closeErr |}, None) |}.

Definition flags : Flags := {| subs := ["markets:86:trades"]; detailed := false |}.

(** The connection comes up, a message arrives, the operator
    interrupts; the connection goes down while it is being closed. *)
Definition session : list Event :=
  [CbState Down Up None; CbMessage "trade"; EvInterrupt; EvMainReceive;
   CbState Up Down None; EvMainReturn].

End Sample.

End StreamClient.


(** * Properties *)

Section Properties.

Context {lib : Packages}.

(** ** Schedules *)

Lemma exec_app (app : TradeApp) (tr1 tr2 : list Event) (s : State) :
  exec app s (tr1 ++ tr2) =
  match exec app s tr1 with
  | Some s' => exec app s' tr2
  | None => None
  end.
Proof.
  revert s. induction tr1 as [|ev tr1 IH]; intros s; simpl; [reflexivity|].
  destruct (step app s ev); [apply IH | reflexivity].
Qed.

(** A property kept by every step holds along every schedule. *)
Lemma exec_invariant (app : TradeApp) (P : State -> Prop) :
  (forall s ev s', P s -> step app s ev = Some s' -> P s') ->
  forall tr s s', P s -> exec app s tr = Some s' -> P s'.
Proof.
  intros Hstep tr. induction tr as [|ev tr IH]; intros s s' Hs H; simpl in H.
  - inversion H; subst; assumption.
  - destruct (step app s ev) as [s1|] eqn:E; [|discriminate].
    eapply IH; [eapply Hstep; eassumption | exact H].
Qed.

(** ** Histories *)

Lemma send_results_app ch h d :
  send_results ch (h ++ d) = send_results ch h ++ send_results ch d.
Proof. apply flat_map_app. Qed.

Lemma sends_on_app ch h d : sends_on ch (h ++ d) = sends_on ch h ++ sends_on ch d.
Proof. unfold sends_on. rewrite send_results_app. apply map_app. Qed.

Lemma recvs_on_app ch h d : recvs_on ch (h ++ d) = recvs_on ch h ++ recvs_on ch d.
Proof. apply flat_map_app. Qed.

Lemma dispatches_app h d : dispatches (h ++ d) = dispatches h ++ dispatches d.
Proof. apply flat_map_app. Qed.

Lemma sent_by_run_app h d : sent_by_run (h ++ d) = sent_by_run h ++ sent_by_run d.
Proof. apply flat_map_app. Qed.

Lemma calls_app h d : calls (h ++ d) = calls h ++ calls d.
Proof. apply flat_map_app. Qed.

Lemma annotations_app h d : annotations (h ++ d) = annotations h ++ annotations d.
Proof. apply flat_map_app. Qed.

Lemma non_nil_app l m : non_nil (l ++ m) = non_nil l ++ non_nil m.
Proof. apply flat_map_app. Qed.

Lemma annotation_mode_action (a : Action) :
  mode_action a = true -> annotation a = [].
Proof.
  destruct a as [f c| |c| | | |]; simpl; try reflexivity.
  destruct c as [l|l|fmt l|fmt l]; try reflexivity.
  intros H. apply String.eqb_eq in H. subst fmt.
  unfold annotation.
  repeat match goal with
         | |- context [match ?x with _ => _ end] => is_var x; destruct x
         end; reflexivity.
Qed.

(** The actions of a mode function are invisible to the observers of
    channels, dispatches and annotations. *)
Lemma mode_actions_silent (d : list Action) :
  forallb mode_action d = true ->
  (forall ch, send_results ch d = []) /\ (forall ch, sends_on ch d = []) /\
  (forall ch, recvs_on ch d = []) /\
  dispatches d = [] /\ annotations d = [] /\ sent_by_run d = [].
Proof.
  induction d as [|a d IH]; simpl; [intros _; repeat split; reflexivity|].
  intros H. apply andb_prop in H. destruct H as [Ha Hd].
  destruct (IH Hd) as (I1 & I0 & I2 & I3 & I4 & I5).
  unfold annotations, sends_on in *. simpl.
  rewrite (annotation_mode_action a Ha), I4.
  destruct a as [f c| |c| | | |]; simpl in Ha; try discriminate;
    repeat split; intros; simpl; auto.
Qed.

(** ** The mode functions *)

Ltac run_M :=
  unfold bind, ret, emit, log_Println, log_Printf, log_Print, log_Fatalf,
    log_call, log_Flags, log_SetFlags; cbn.

(** What the switch of [run] adds to the history: the dispatch mark and
    the actions of the mode function; the logger flags are as before. *)
Lemma dispatch_actions (app : TradeApp) (w : World) :
  exists d,
    hist (snd (dispatch app w)) =
      hist w ++ ADispatch (mode_branch (Mode (args app))) :: d /\
    forallb mode_action d = true /\
    logFlags (snd (dispatch app w)) = logFlags w.
Proof.
  unfold dispatch.
  destruct (mode_branch (Mode (args app))).
  - unfold TradeApp_list. run_M.
    destruct (GetOrders (client app) (marketID app)) as [orders [e|]]; cbn;
      rewrite <- ?app_assoc; cbn; eexists; repeat split; reflexivity.
  - unfold TradeApp_balances. run_M.
    destruct (GetBalances (client app)) as [result [e|]]; cbn;
      rewrite <- ?app_assoc; cbn; eexists; repeat split; reflexivity.
  - unfold TradeApp_place. run_M.
    destruct (PlaceOrder (client app) (place_params app)) as [order [e|]]; cbn;
      rewrite <- ?app_assoc; cbn; eexists; repeat split; reflexivity.
  - unfold TradeApp_cancel. run_M.
    destruct (CancelOrder (client app) (cancel_params app)) as [e|]; cbn;
      rewrite <- ?app_assoc; cbn; eexists; repeat split; reflexivity.
  - run_M. exists []. repeat split; reflexivity.
Qed.



(** ** Every step of [step] is a step of the relation *)

Ltac step_split H :=
  unfold step in H;
  match type of H with
  | (if negb (alive ?s) then _ else _) = _ =>
      destruct (alive s) eqn:Halive; cbn [negb] in H; [|discriminate]
  end;
  match type of H with
  | match ?ev with _ => _ end = _ => destruct ev
  end;
  repeat match type of H with
         | match ?x with _ => _ end = _ => destruct x eqn:?
         | (if ?x then _ else _) = _ => destruct x eqn:?
         end;
  try discriminate; inversion H; subst; clear H.

Lemma Step_eq app s ev s1 s2 : Step app s ev s1 -> s1 = s2 -> Step app s ev s2.
Proof. intros H E. rewrite <- E. exact H. Qed.

(** Equality of two states built from the same state: evaluate both
    sides, leaving the appends on the history to be reassociated. *)
Ltac state_eq :=
  match goal with
  | s : State |- _ => destruct s as [[? ?] ? ? ? ? ? ? ? ?]
  end;
  lazy beta iota zeta delta -[app];
  rewrite ?app_nil_r, <- ?app_assoc; reflexivity.

Lemma step_Step app s ev s' :
  step app s ev = Some s' -> alive s = true /\ Step app s ev s'.
Proof.
  intros H. step_split H; (split; [reflexivity|]).
  - eapply Step_eq; [eapply St_signal; eassumption | state_eq].
  - eapply Step_eq; [eapply St_main_signal; eassumption | state_eq].
  - eapply Step_eq; [eapply St_main_err; eassumption | ].
    destruct g as [[| |msg]|]; state_eq.
  - eapply Step_eq; [eapply St_main_close; eassumption | ].
    unfold main_close, close_status. destruct (Close (client app)); state_eq.
  - eapply Step_eq; [eapply St_run_connect; eassumption | state_eq].
  - eapply Step_eq; [eapply St_run_done; eassumption | state_eq].
  - eapply Step_eq; [eapply St_run_ready; eassumption | state_eq].
  - eapply Step_eq; [eapply St_run_park; eassumption | state_eq].
  - unfold run_dispatch, exec_M.
    match goal with
    | |- context [dispatch app ?w] =>
        destruct (dispatch_actions app w) as (d & Hh & Hm & Hf);
        destruct (dispatch app w) as [v [f' h']] eqn:Hd
    end.
    cbn in Hh, Hf. subst f' h'.
    eapply Step_eq; [eapply (St_run_dispatch app s v d); eassumption | state_eq].
  - unfold run_send.
    match goal with
    | |- context [chan_send ?c0 ?x] => destruct (chan_send c0 x) as [c r] eqn:Hs
    end.
    eapply Step_eq; [eapply St_run_send; eassumption | state_eq].
  - unfold onReady. destruct (run_pc s) eqn:Hp;
      try (destruct (chan_send (ready s) tt) as [c r] eqn:Hs;
           eapply Step_eq;
           [eapply St_on_ready; [congruence | eassumption]
           |state_eq]).
    eapply Step_eq; [eapply St_on_ready_handoff; eassumption | state_eq].
  - eapply Step_eq; [eapply St_on_subscription | ].
    destruct failed; state_eq.
  - unfold onErrorVerbose. destruct disconnecting.
    + destruct (chan_send (lastErrChan s) err) as [c r] eqn:Hs.
      eapply Step_eq; [eapply St_on_error_save; eassumption | state_eq].
    + eapply Step_eq; [eapply St_on_error_print; eassumption | state_eq].
  - unfold onErrorOutcome. destruct err as [e|].
    + destruct (chan_send (errChan s) (Some e)) as [c r] eqn:Hs.
      eapply Step_eq; [eapply St_on_error_outcome; eassumption | state_eq].
    + eapply Step_eq; [eapply St_on_error_nil | state_eq].
  - unfold onStateChange.
    destruct (chan_recv (lastErrChan s)) as [[[e|] c]|] eqn:Hr.
    + eapply Step_eq; [eapply St_on_state_err; eassumption | state_eq].
    + eapply Step_eq; [eapply St_on_state_nil; eassumption | state_eq].
    + eapply Step_eq; [eapply St_on_state_plain; eassumption | state_eq].
Qed.




(** ** Channels *)

Lemma chan_send_spec {A : Type} (c0 c : Chan A) (v : A) (r : SendResult) :
  chan_wf c0 -> chan_send c0 v = (c, r) ->
  chan_wf c /\ chan_values c = chan_values c0 ++ [v] /\ cap c = cap c0 /\
  (chan_values c0 = [] -> (0 < cap c0)%nat -> r = Sent).
Proof.
  unfold chan_wf, chan_send, chan_values. intros [W1 W2] H.
  destruct (Nat.ltb_spec (List.length (buf c0)) (cap c0)) as [L|L];
    inversion H; subst; clear H; cbn.
  - pose proof (W1 L) as E0. rewrite E0, !app_nil_r, length_app. cbn.
    split; [split; [intros _; reflexivity | lia]|].
    split; [reflexivity|]. split; [reflexivity|]. intros _ _. reflexivity.
  - split; [split; [intros L'; lia | exact W2]|].
    split; [apply app_assoc|]. split; [reflexivity|].
    intros E Hc. apply app_eq_nil in E. destruct E as [E _].
    rewrite E in L. cbn in L. lia.
Qed.

Lemma chan_recv_spec {A : Type} (c0 c : Chan A) (v : A) :
  chan_wf c0 -> chan_recv c0 = Some (v, c) ->
  chan_wf c /\ chan_values c0 = v :: chan_values c /\ cap c = cap c0.
Proof.
  unfold chan_wf, chan_recv, chan_values. intros [W1 W2] H.
  destruct (buf c0) as [|x b] eqn:Eb; destruct (sendq c0) as [|y q] eqn:Eq;
    inversion H; subst; clear H; cbn in *.
  - split; [split; [intros L; specialize (W1 L); discriminate | lia]|].
    split; reflexivity.
  - split; [split; [intros _; reflexivity | lia]|]. split; reflexivity.
  - assert (~ (S (List.length b) < cap c0)%nat) as Hfull.
    { intros L. specialize (W1 L). discriminate. }
    rewrite length_app. cbn.
    split; [split; [intros L; lia | lia]|].
    split; [rewrite <- app_assoc; reflexivity | reflexivity].
Qed.

Lemma chan_recv_none {A : Type} (c0 : Chan A) :
  chan_recv c0 = None -> chan_values c0 = [].
Proof.
  unfold chan_recv, chan_values.
  destruct (buf c0); destruct (sendq c0); intros H; try discriminate; reflexivity.
Qed.

(** ** The channel invariant *)

Ltac observe :=
  unfold next; cbn [world hist logFlags main_pc run_pc ctx_done signals
                    notifying errChan ready lastErrChan];
  rewrite ?sends_on_app, ?recvs_on_app, ?send_results_app, ?dispatches_app,
    ?annotations_app, ?calls_app, ?sent_by_run_app.

(** Case analysis on what a step prints: the received value, the result
    of [Close], the failed subscriptions. *)
Ltac split_delta :=
  try match goal with
      | |- context [err_report _ ?v] => destruct v as [[| |?]|]
      end;
  try match goal with
      | |- context [close_tail _ ?r] => destruct r eqn:?
      end;
  try match goal with
      | |- context [match ?f with [] => _ | _ :: _ => _ end] => destruct f
      end;
  cbn [err_report close_tail is_errUnknownMode].

Ltac silence :=
  try match goal with
      | H : forallb mode_action ?d = true |- _ =>
          let S0 := fresh "S" in let S1 := fresh "S" in
          let S2 := fresh "S" in let S3 := fresh "S" in
          let S4 := fresh "S" in let S5 := fresh "S" in
          destruct (mode_actions_silent d H) as (S0 & S1 & S2 & S3 & S4 & S5);
          rewrite ?S0, ?S1, ?S2, ?S3, ?S4, ?S5
      end.

Ltac chan_facts :=
  repeat match goal with
         | H : chan_send ?c0 ?v = (?c, ?r), W : chan_wf ?c0 |- _ =>
             let F := fresh "F" in
             pose proof (chan_send_spec c0 c v r W H) as F;
             destruct F as (? & ? & ? & ?); clear H
         | H : chan_recv ?c0 = Some (?v, ?c), W : chan_wf ?c0 |- _ =>
             let F := fresh "F" in
             pose proof (chan_recv_spec c0 c v W H) as F;
             destruct F as (? & ? & ?); clear H
         end.

(** The first send on a channel whose sends so far are all accounted
    for finds the channel empty. *)
Lemma first_send_sent (h : list Action) (recvd vals : list goerror)
  (v : goerror) (r : SendResult) (n : nat) :
  sends_on ChErr h = recvd ++ vals ->
  (forall v0 r0 rest, send_results ChErr h = (v0, r0) :: rest -> r0 = Sent) ->
  (vals = [] -> (0 < n)%nat -> r = Sent) -> (0 < n)%nat ->
  forall v0 r0 rest,
    send_results ChErr h ++ [(v, r)] = (v0, r0) :: rest -> r0 = Sent.
Proof.
  intros Hs Hf Hr Hn v0 r0 rest E. unfold sends_on in Hs.
  destruct (send_results ChErr h) as [|[v1 r1] l] eqn:El.
  - cbn in E, Hs. inversion E; subst.
    symmetry in Hs. apply app_eq_nil in Hs. destruct Hs as [_ Hv]. auto.
  - cbn in E. inversion E; subst. eapply Hf. reflexivity.
Qed.

Lemma Inv_chan_step app s ev s' :
  Inv_chan s -> Step app s ev s' -> Inv_chan s'.
Proof.
  intros [Ce Cl We Wl Wr Ie Il Ir If] H.
  destruct H; split_delta; chan_facts; constructor; observe; silence;
    cbn; rewrite ?app_nil_r; try assumption; try congruence.
  all: try (eapply first_send_sent; [exact Ie | exact If | eassumption | lia]).
  all: try (rewrite Ie; match goal with
                        | E : chan_values _ = _ |- _ => rewrite E
                        end; rewrite <- ?app_assoc; reflexivity).
  all: try (rewrite Il; match goal with
                        | E : chan_values _ = _ |- _ => rewrite E
                        end; rewrite <- ?app_assoc; reflexivity).
  all: try (match goal with
            | E : chan_values _ = _ |- _ =>
                first [rewrite E | rewrite E in Ir]
            end; rewrite ?length_app in *; cbn in *; lia).

  rewrite !length_app. cbn. lia.
Qed.

(** ** The invariant of [main] *)

Lemma Inv_main_step app s ev s' :
  Inv_main app s -> alive s = true -> Step app s ev s' -> Inv_main app s'.
Proof.
  intros [Is Io Ie] Al H. unfold alive in Al.
  destruct H; split_delta; constructor; observe; silence;
    cbn; rewrite ?app_nil_r; try assumption.
  all: try (intros X; discriminate X).
  all: try (intros c0 X; discriminate X).
  all: try (intros c0 X; rewrite X in Al; discriminate Al).
  all: try (intros c0 X; inversion X; reflexivity).
  all: destruct (Is ltac:(assumption)) as [R0 _]; rewrite R0; cbn; lia.
Qed.

(** ** The invariant of [run] *)

Lemma dispatches_split (d d1 d2 : list Action) (b : Branch) :
  d = d1 ++ ADispatch b :: d2 -> dispatches d <> [].
Proof.
  intros E. rewrite E, dispatches_app. cbn. intros X.
  apply app_eq_nil in X. destruct X as [_ X]. discriminate X.
Qed.

Lemma gated_app (h d : list Action) :
  gated h ->
  (forall d1 b d2, d = d1 ++ ADispatch b :: d2 ->
                   sends_on ChReady (h ++ d1) <> []) ->
  gated (h ++ d).
Proof.
  intros G Hd h1 b h2 E. apply app_eq_app in E. destruct E as [l [[E1 E2]|[E1 E2]]].
  - destruct l as [|x l].
    + rewrite app_nil_r in E1. subst h1. cbn in E2.
      specialize (Hd [] b h2 (eq_sym E2)). rewrite app_nil_r in Hd. exact Hd.
    + cbn in E2. inversion E2; subst. eapply G. reflexivity.
  - subst h1. eapply Hd. exact E2.
Qed.

Lemma gated_quiet (h d : list Action) :
  gated h -> dispatches d = [] -> gated (h ++ d).
Proof.
  intros G Hd. apply gated_app; [exact G|].
  intros d1 b d2 E. exfalso. eapply dispatches_split; eassumption.
Qed.

Lemma gated_dispatch (h d : list Action) (b0 : Branch) :
  gated h -> dispatches d = [] -> sends_on ChReady h <> [] ->
  gated (h ++ [ADispatch b0] ++ d).
Proof.
  intros G Hd Hs. apply gated_app; [exact G|].
  intros d1 b d2 E. destruct d1 as [|x d1]; cbn in E.
  - rewrite app_nil_r. exact Hs.
  - inversion E; subst. exfalso. eapply dispatches_split; [reflexivity | exact Hd].
Qed.

Lemma ready_sent_before_recv (s : State) (u : unit) (c : Chan unit) :
  Inv_chan s -> chan_recv (ready s) = Some (u, c) ->
  sends_on ChReady (hist (world s)) <> [].
Proof.
  intros Ic Hr E. pose proof (inv_ready s Ic) as L. rewrite E in L. cbn in L.
  destruct (chan_recv_spec _ _ _ (inv_wf_ready s Ic) Hr) as (_ & Hv & _).
  rewrite Hv in L. cbn in L. lia.
Qed.

Lemma wake_done_waiting (p : RunPC) :
  wake_done p = RStart \/ wake_done p = RSelect \/ wake_done p = RParked \/
  wake_done p = RReady ->
  p = RStart \/ p = RSelect \/ p = RReady.
Proof.
  destruct p; cbn; intros [X|[X|[X|X]]]; try discriminate X; auto.
Qed.

Lemma wake_done_not_done (p : RunPC) : wake_done p <> RDone -> p <> RDone.
Proof. destruct p; cbn; congruence. Qed.

Lemma wake_done_not_ready (p : RunPC) : wake_done p = RReady -> p = RReady.
Proof. destruct p; cbn; congruence. Qed.

Lemma Inv_run_step app s ev s' :
  Inv_chan s -> Inv_run app s -> Step app s ev s' -> Inv_run app s'.
Proof.
  intros Ic [Iw Ie Is Ib Ig Iu] H.
  destruct H; split_delta; constructor; observe; silence;
    cbn; rewrite ?app_nil_r; try assumption.
  all: try (intros X; apply Iu; congruence).
  all: try (intros X; apply Iu; apply wake_done_not_done; exact X).
  all: try (intros X; congruence).
  all: try (apply gated_quiet; [exact Ig | reflexivity]).
  all: try (intros X; apply wake_done_not_ready in X; apply Ie; exact X).
  all: try (intros X; apply wake_done_waiting in X; apply Iw; tauto).
  all: try (intros [X|[X|[X|X]]]; discriminate X).
  all: try (intros _; apply Iw; auto).
  all: try (rewrite (Iw ltac:(auto)); cbn; lia).
  all: try (intros _ X; apply app_eq_nil in X; destruct X as [_ X];
            discriminate X).
  - intros _. eapply ready_sent_before_recv; eassumption.
  - intros b. rewrite (Iw ltac:(auto)). cbn. intros [X|[]]. congruence.
  - apply (gated_dispatch (hist (world s)) d); auto.
Qed.

(** ** The invariant of the annotations *)

Lemma Inv_annot_step app s ev s' :
  Inv_annot s -> Step app s ev s' -> Inv_annot s'.
Proof.
  unfold Inv_annot. intros I H.
  destruct H; split_delta; observe; rewrite ?non_nil_app, I; silence;
    cbn; rewrite ?app_nil_r; try reflexivity.

Qed.

(** ** Reachable states *)

Lemma Inv_initial (app : TradeApp) : Inv app (initial_state initial_world).
Proof.
  split; [|split; [|split]];
    [constructor | constructor | constructor | reflexivity]; cbn;
    try reflexivity; try lia;
    try (unfold chan_wf; cbn; split; [intros _; reflexivity | lia]);
    try (intros; discriminate);
    try (intros _; split; reflexivity);
    try (intros h1 b h2 E; destruct h1; discriminate E);
    try (intros ? []).
Qed.

Lemma Inv_step (app : TradeApp) (s s' : State) (ev : Event) :
  Inv app s -> step app s ev = Some s' -> Inv app s'.
Proof.
  intros (Ic & Im & Ir & Ia) H. apply step_Step in H. destruct H as [Al H].
  split; [|split; [|split]].
  - eapply Inv_chan_step; eassumption.
  - eapply Inv_main_step; eassumption.
  - eapply Inv_run_step; eassumption.
  - eapply Inv_annot_step; eassumption.
Qed.

Lemma Inv_exec (app : TradeApp) (tr : list Event) (s s' : State) :
  Inv app s -> exec app s tr = Some s' -> Inv app s'.
Proof.
  apply (exec_invariant app (Inv app)). intros s1 ev s2. apply Inv_step.
Qed.

(** ** The end of [main] *)

Lemma mode_actions_keep_open (d : list Action) :
  forallb mode_action d = true ->
  ~ In (ACall CClose) d /\ forall f fmt l, ~ In (ALog f (Fatalf fmt l)) d.
Proof.
  intros H. rewrite forallb_forall in H.
  split; [intros X | intros f fmt l X]; specialize (H _ X); discriminate H.
Qed.

(** A step that leaves [main] short of its exit, adding actions that are
    neither a call of [Close] nor a [log.Fatalf] line, and among which a
    receive from [errChan] is followed by the lines of 81-87. *)
Lemma Inv_closing_next app s d mp rp cd sg nt ec rd le :
  Inv_closing app s -> alive s = true ->
  match mp with MExited _ => False | _ => True end ->
  ~ In (ACall CClose) d ->
  (forall f fmt l, ~ In (ALog f (Fatalf fmt l)) d) ->
  recvs_on ChErr d = [] \/
  (exists f v, d = ARecv ChErr v :: ACancel :: err_report f v) ->
  Inv_closing app (next s d mp rp cd sg nt ec rd le).
Proof.
  intros [Io Ie _] Al Hmp Dc Df Dr. destruct (Io Al) as [Oc Of].
  constructor; unfold next; cbn [world hist main_pc].
  - intros _. split.
    + rewrite in_app_iff. intros [X|X]; [exact (Oc X) | exact (Dc X)].
    + intros f fmt l. rewrite in_app_iff.
      intros [X|X]; [exact (Of _ _ _ X) | exact (Df _ _ _ X)].
  - intros e. rewrite recvs_on_app, in_app_iff. intros [Hin|Hin].
    + destruct (Ie e Hin) as (f & h1 & h2 & E & N).
      exists f, h1, (h2 ++ d). rewrite E, <- app_assoc. split; [reflexivity | exact N].
    + destruct Dr as [Dr|(f & v & Dr)]; [rewrite Dr in Hin; destruct Hin|].
      subst d.
      assert (recvs_on ChErr (ARecv ChErr v :: ACancel :: err_report f v) = [v])
        as R.
      { destruct v as [e0|]; cbn; [destruct (is_errUnknownMode e0)|];
          reflexivity. }
      rewrite R in Hin. destruct Hin as [Hin|[]].
      subst v. cbn [err_report].
      exists f, (hist (world s) ++ [ARecv ChErr (Some e); ACancel]),
        (if is_errUnknownMode e then [AUsage] else []).
      rewrite <- app_assoc. split; [reflexivity|].
      rewrite in_app_iff. intros [X|[X|[X|[]]]];
        [exact (Oc X) | discriminate X | discriminate X].
  - intros c X. subst mp. destruct Hmp.
Qed.

(** Lines 92-97. *)
Lemma Inv_closing_exit app s c rp cd sg nt ec rd le :
  Inv_closing app s -> alive s = true ->
  Inv_closing app
    (next s (ALog (logFlags (world s)) (Printf "Closing connection..." [])
             :: ACall CClose
             :: close_tail (logFlags (world s)) (Close (client app)))
          (MExited c) rp cd sg nt ec rd le).
Proof.
  intros [Io Ie _] Al. destruct (Io Al) as [Oc Of].
  constructor; unfold next; cbn [world hist main_pc].
  - unfold alive. cbn. intros X. discriminate X.
  - intros e. rewrite recvs_on_app.
    assert (recvs_on ChErr
              (ALog (logFlags (world s)) (Printf "Closing connection..." [])
               :: ACall CClose
               :: close_tail (logFlags (world s)) (Close (client app))) = [])
      as R by (destruct (Close (client app)); reflexivity).
    rewrite R, app_nil_r. intros Hin.
    destruct (Ie e Hin) as (f & h1 & h2 & E & N).
    eexists f, h1, _. rewrite E, <- app_assoc. split; [reflexivity | exact N].
  - intros c0 _. exists (logFlags (world s)), (hist (world s)).
    split; [reflexivity|]. split; [exact Oc | exact Of].
Qed.

Lemma Inv_closing_step app s ev s' :
  Inv_closing app s -> step app s ev = Some s' -> Inv_closing app s'.
Proof.
  intros I H. apply step_Step in H. destruct H as [Al H].
  assert (match main_pc s with MExited _ => False | _ => True end) as Hm.
  { unfold alive in Al. destruct (main_pc s); [exact Logic.I | exact Logic.I | discriminate Al]. }
  destruct H;
    try (apply Inv_closing_exit; assumption);
    apply Inv_closing_next; try assumption; try exact Logic.I.
  all: try (intros X; cbn in X; intuition discriminate).
  all: try (intros f0 fmt l X; cbn in X; intuition discriminate).
  all: try (left; reflexivity).
  - destruct v as [e|]; cbn; [destruct (is_errUnknownMode e)|]; cbn;
      intuition discriminate.
  - intros f fmt l. destruct v as [e|]; cbn; [destruct (is_errUnknownMode e)|];
      cbn; intuition discriminate.
  - right. eexists _, _. reflexivity.
  - destruct (mode_actions_keep_open d) as [Dc _]; [assumption|].
    cbn. intros [X|X]; [discriminate X | exact (Dc X)].
  - destruct (mode_actions_keep_open d) as [_ Df]; [assumption|].
    intros f fmt l. cbn. intros [X|X]; [discriminate X | exact (Df _ _ _ X)].
  - left. rewrite recvs_on_app.
    destruct (mode_actions_silent d) as (_ & _ & Sr & _); [assumption|].
    rewrite Sr. reflexivity.
  - destruct failed; cbn; intuition discriminate.
  - intros f fmt l. destruct failed; cbn; intuition discriminate.
  - left. destruct failed; reflexivity.
Qed.

Lemma Inv_closing_initial (app : TradeApp) :
  Inv_closing app (initial_state initial_world).
Proof.
  constructor; cbn.
  - intros _. split; [intros [] | intros f fmt l []].
  - intros e [].
  - intros c X. discriminate X.
Qed.

Lemma Inv_closing_exec (app : TradeApp) (tr : list Event) (s s' : State) :
  Inv_closing app s -> exec app s tr = Some s' -> Inv_closing app s'.
Proof.
  apply (exec_invariant app (Inv_closing app)). intros s1 ev s2.
  apply Inv_closing_step.
Qed.


(** ** [startup] and [main] *)

Lemma startup_running (env : Env) (cp : string) (a : cliArgs)
  (app : TradeApp) (s0 : State) :
  startup env cp a = Running app s0 ->
  checkCliArgs a = None /\ args app = a /\ marketID app = common_MarketID lib (MarketID a) /\
  s0 = initial_state initial_world.
Proof.
  unfold startup, fail_start, NewTradeApp.
  destruct (checkCliArgs a); [discriminate|].
  destruct (if (cp =? "")%string then _ else _) as [cfg [e|]]; [discriminate|].
  destruct (websocket_NewTradeClient env _) as [tc [e|]]; [discriminate|].
  intros H. inversion H; subst. repeat split.
Qed.

Lemma startup_exit (env : Env) (cp : string) (a : cliArgs)
  (w : World) (code : Z) :
  startup env cp a = Exit w code ->
  code = 1 /\
  exists err, hist w = [ALog LstdFlags (Print [VErr (Some err)])] /\
              (forall e, checkCliArgs a = Some e -> err = e).
Proof.
  unfold startup, fail_start, NewTradeApp.
  destruct (checkCliArgs a) as [e0|].
  { intros H. inversion H; subst. split; [reflexivity|].
    exists e0. split; [reflexivity|]. intros e E. congruence. }
  destruct (if (cp =? "")%string then _ else _) as [cfg [e|]].
  { intros H. inversion H; subst. split; [reflexivity|].
    exists e. split; [reflexivity|]. intros e1 E. discriminate E. }
  destruct (websocket_NewTradeClient env _) as [tc [e|]]; [|discriminate].
  intros H. inversion H; subst. split; [reflexivity|].
  exists e. split; [reflexivity|]. intros e1 E. discriminate E.
Qed.

Lemma main_running (env : Env) (cp : string) (a : cliArgs) (tr : list Event)
  (app : TradeApp) (s0 : State) (w : World) (st : option Z) :
  startup env cp a = Running app s0 ->
  main env cp a tr = Some (w, st) ->
  exists s', exec app s0 tr = Some s' /\ Inv app s' /\
             w = world s' /\ st = exit_status s'.
Proof.
  intros Hs Hm. unfold main in Hm. rewrite Hs in Hm.
  destruct (exec app s0 tr) as [s'|] eqn:E; [|discriminate].
  inversion Hm; subst. exists s'.
  split; [reflexivity|]. split; [|split; reflexivity].
  destruct (startup_running _ _ _ _ _ Hs) as (_ & _ & _ & E0). subst s0.
  eapply Inv_exec; [apply Inv_initial | exact E].
Qed.

Lemma main_exit (env : Env) (cp : string) (a : cliArgs) (tr : list Event)
  (w0 w : World) (code : Z) (st : option Z) :
  startup env cp a = Exit w0 code ->
  main env cp a tr = Some (w, st) ->
  tr = [] /\ w = w0 /\ st = Some code.
Proof.
  intros Hs Hm. unfold main in Hm. rewrite Hs in Hm.
  destruct tr; [|discriminate]. inversion Hm; subst. repeat split.
Qed.

Lemma exit_status_pc (s : State) (code : Z) :
  exit_status s = Some code -> main_pc s = MExited code.
Proof.
  unfold exit_status. destruct (main_pc s); intros H; try discriminate.
  inversion H; reflexivity.
Qed.

(** ** Argument validation *)

Lemma checkCliArgs_None (a : cliArgs) :
  checkCliArgs a = None ->
  In (Mode a) known_modes /\ MarketID a <> 0 /\
  (Mode a = "cancel" -> OrderID a <> "").
Proof.
  unfold checkCliArgs, known_modes. intros H.
  destruct (String.eqb_spec (Mode a) "") as [E0|N0]; [discriminate|].
  destruct (String.eqb_spec (Mode a) "place") as [Ep|Np];
  destruct (String.eqb_spec (Mode a) "cancel") as [Ec|Nc];
  destruct (String.eqb_spec (Mode a) "list") as [El|Nl];
  destruct (String.eqb_spec (Mode a) "balances") as [Eb|Nb];
  cbn [negb andb] in H; try discriminate;
  destruct (Z.eqb_spec (MarketID a) 0) as [Em|Nm]; try discriminate;
  destruct (String.eqb_spec (OrderID a) "") as [Eo|No]; try discriminate;
  (split; [simpl; auto | split; [assumption | intros; congruence]]).
Qed.

(** A validated mode never selects the default branch of the switch. *)
Lemma validated_mode_branch (a : cliArgs) :
  checkCliArgs a = None -> mode_branch (Mode a) <> BDefault.
Proof.
  intros H. destruct (checkCliArgs_None a H) as (Hin & _ & _).
  unfold known_modes in Hin. simpl in Hin.
  destruct Hin as [E|[E|[E|[E|[]]]]]; rewrite <- E; discriminate.
Qed.

(** C6.  [checkCliArgs] accepts exactly the argument sets whose mode is
    one of list, balances, place, cancel, whose market id is not zero and
    whose order id is not empty when the mode is cancel.  Every other
    argument set is answered with an error, on which [main] exits with
    status 1 without having called any method of the trade client. *)
Theorem checkCliArgs_accepts_iff (a : cliArgs) :
  (checkCliArgs a = None <->
   (In (Mode a) known_modes /\ MarketID a <> 0 /\
    (Mode a = "cancel" -> OrderID a <> ""))) /\
  (forall env cp tr w st,
      checkCliArgs a <> None -> main env cp a tr = Some (w, st) ->
      st = Some 1 /\ calls (hist w) = []).
Proof.
  split.
  - split; [apply checkCliArgs_None|].
    unfold checkCliArgs, known_modes. intros (Hin & Hm & Ho).
    apply Z.eqb_neq in Hm. rewrite Hm.
    simpl in Hin. destruct Hin as [E|[E|[E|[E|[]]]]]; rewrite <- E in *; simpl;
      try reflexivity.
    destruct (String.eqb_spec (OrderID a) "") as [Eo|No]; [|reflexivity].
    exfalso. apply Ho; auto.
  - intros env cp tr w st Hn Hm.
    destruct (startup env cp a) as [w0 c0|app s0] eqn:Hs.
    + destruct (main_exit _ _ _ _ _ _ _ _ Hs Hm) as (_ & Ew & Ec).
      destruct (startup_exit _ _ _ _ _ Hs) as (E1 & err & Eh & _).
      subst. rewrite Eh. split; reflexivity.
    + destruct (startup_running _ _ _ _ _ Hs) as (Hv & _). contradiction.
Qed.

(** ** Exit status *)


(** C2, as amended.  When [Close] fails, [main] prints the failure with
    [log.Fatalf] after the call of [Close] and the exit status is 1;
    after that line [main] neither cancels the context nor calls [Close]
    again.  When [Close] succeeds the exit status is 0 and nothing was
    printed with [log.Fatalf].  Both whatever was received from
    [errChan]. *)
Theorem close_failure_is_fatal (env : Env) (cp : string) (a : cliArgs)
  (tr : list Event) (app : TradeApp) (s0 : State) (w : World) (code : Z) :
  startup env cp a = Running app s0 ->
  main env cp a tr = Some (w, Some code) ->
  match Close (client app) with
  | Some e =>
      code = 1 /\
      exists f h1 h2,
        hist w =
        h1 ++ ALog f (Fatalf "Failed to close connection: %s" [VErr (Some e)])
           :: h2 /\
        In (ACall CClose) h1 /\ ~ In ACancel h2 /\ ~ In (ACall CClose) h2
  | None =>
      code = 0 /\ forall f fmt l, ~ In (ALog f (Fatalf fmt l)) (hist w)
  end.
Proof.
  intros Hs Hm.
  destruct (main_running _ _ _ _ _ _ _ _ Hs Hm) as (s' & He & I & Ew & Ec).
  destruct I as (_ & Im & _ & _). subst w.
  destruct (startup_running _ _ _ _ _ Hs) as (_ & _ & _ & E0). subst s0.
  pose proof (Inv_closing_exec app tr _ _ (Inv_closing_initial app) He)
    as [_ _ Ic].
  symmetry in Ec. apply exit_status_pc in Ec.
  destruct (Ic code Ec) as (f & h0 & E & Nc & Nf).
  rewrite (inv_exit app s' Im code Ec). unfold close_status.
  destruct (Close (client app)) as [e|]; cbn [close_tail] in E.
  - split; [reflexivity|].
    exists f, (h0 ++ [ALog f (Printf "Closing connection..." []); ACall CClose]),
      []. rewrite <- app_assoc. split; [exact E|].
    split; [apply in_or_app; right; right; left; reflexivity|].
    split; intros [].
  - split; [reflexivity|]. intros f' fmt l. rewrite E, in_app_iff.
    intros [X|[X|[X|[X|[]]]]]; [exact (Nf _ _ _ X) | | |]; discriminate X.
Qed.

(** ** The outcome handoff *)



(** ** Unknown modes *)

(** C5.  When the arguments fail validation, [main] exits with status 1
    having only printed the error: it follows no schedule and calls no
    method of the trade client, [Connect] included.  And in no run does
    the switch of [run] take its default branch. *)
Theorem invalid_request_never_connects (env : Env) (cp : string)
  (a : cliArgs) (tr : list Event) (w : World) (st : option Z) :
  main env cp a tr = Some (w, st) ->
  (forall err, checkCliArgs a = Some err ->
               tr = [] /\ st = Some 1 /\
               hist w = [ALog LstdFlags (Print [VErr (Some err)])] /\
               ~ In CConnect (calls (hist w))) /\
  ~ In BDefault (dispatches (hist w)).
Proof.
  intros Hm. destruct (startup env cp a) as [w0 c0|app s0] eqn:Hs.
  - destruct (main_exit _ _ _ _ _ _ _ _ Hs Hm) as (Et & Ew & Ec).
    destruct (startup_exit _ _ _ _ _ Hs) as (E1 & err & Eh & Ee).
    subst. split.
    + intros e He. rewrite <- (Ee e He). rewrite Eh. cbn.
      repeat split; auto.
    + rewrite Eh. cbn. auto.
  - destruct (startup_running _ _ _ _ _ Hs) as (Hv & Ha & _ & _).
    split; [intros err He; congruence|].
    destruct (main_running _ _ _ _ _ _ _ _ Hs Hm) as (s' & _ & I & Ew & _).
    destruct I as (_ & _ & Ir & _). subst w.
    intros Hin. apply (inv_branch app s' Ir) in Hin. rewrite Ha in Hin.
    symmetry in Hin. revert Hin. apply validated_mode_branch. exact Hv.
Qed.

(** ** Annotated state changes *)


(** ** The mode functions *)

(** C10.  [TradeApp.balances] leaves the logger flags as it found them:
    on failure it never touches them, on success it prints the balance
    mapping under flags 0 and the last line under the flags saved on
    entry, which are in force again when it returns. *)
Theorem balances_restores_flags (app : TradeApp) (w : World) :
  logFlags (snd (TradeApp_balances app w)) = logFlags w /\
  hist (snd (TradeApp_balances app w)) =
  hist w ++
  ALog (logFlags w) (Println [VString "Getting balances..."])
  :: ACall CGetBalances
  :: match GetBalances (client app) with
     | (_, Some e) =>
         [ALog (logFlags w)
               (Println [VString "ERROR: GetBalances()"; VErr (Some e)])]
     | (result, None) =>
         [ALog 0 (Printf "balances=%v" [VBalances result]);
          ALog (logFlags w) (Println [VString "Balances:"; VString "done"])]
     end.
Proof.
  unfold TradeApp_balances. run_M.
  destruct (GetBalances (client app)) as [result [e|]]; cbn;
    rewrite <- ?app_assoc; split; reflexivity.
Qed.

(** C7, as amended.  For mode place the switch of [run] runs
    [TradeApp.place], which calls [PlaceOrder] with the market id of the
    application and otherwise fixed parameters: one absolute price
    "0.01", amount "0.01", side buy, type limit, whatever the arguments
    of the command line.  Price and amount are strings.  On success it
    prints "Order placed:" with the order the trade client returned; on
    failure it returns the error and prints nothing more. *)
Theorem place_uses_fixed_parameters (app : TradeApp) (w : World) :
  let p := {| po_PriceParams :=
                [ {| pp_Type := AbsoluteValuePrice lib; pp_Value := "0.01" |} ];
              po_MarketID := marketID app;
              po_Amount := "0.01";
              po_OrderSide := OrderSideBuy lib;
              po_OrderType := LimitOrder lib |} in
  (Mode (args app) = "place" ->
   dispatch app w =
   TradeApp_place app
     {| logFlags := logFlags w; hist := hist w ++ [ADispatch BPlace] |}) /\
  place_params app = p /\
  TradeApp_place app w =
  (snd (PlaceOrder (client app) p),
   {| logFlags := logFlags w;
      hist :=
        hist w ++
        ALog (logFlags w) (Println [VString "Trading ready: placing order..."])
        :: ACall (CPlaceOrder p)
        :: match PlaceOrder (client app) p with
           | (_, Some e) => []
           | (order, None) =>
               [ALog (logFlags w) (Println [VString "Order placed:"; VOrder order])]
           end |}).
Proof.
  cbv zeta. split; [|split; [reflexivity|]].
  - intros E. unfold dispatch. rewrite E. reflexivity.
  - unfold TradeApp_place. run_M. unfold place_params.
    match goal with
    | |- context [PlaceOrder (client app) ?p] =>
        destruct (PlaceOrder (client app) p) as [order [e|]]
    end; cbn; rewrite <- ?app_assoc; reflexivity.
Qed.

(** ** The select of [run] *)

Lemma cancelled_run_step app s ev s' :
  cancelled_run s -> Step app s ev s' -> cancelled_run s'.
Proof.
  intros [Hd Hp] H.
  destruct H; split_delta; unfold cancelled_run; observe; silence;
    cbn; rewrite ?app_nil_r;
    try (destruct Hp as [[Hp _]|[Hp _]]; congruence);
    try (split; [rewrite ?Hd; reflexivity | exact Hp]);
    try (split; [rewrite ?Hd; reflexivity|];
         destruct Hp as [[Hp Hs]|[Hp Hs]]; rewrite Hp; cbn [wake_done];
         [left|right]; split; auto; fail).
  (* the send of [run] *)
  split; [exact Hd|]. right. split; [reflexivity|].
  destruct Hp as [[Hp Hs]|[Hp _]]; [|congruence].
  assert (v = Some Canceled) by congruence. subst v.
  rewrite Hs. reflexivity.
Qed.

Lemma cancelled_run_exec app tr s s' :
  cancelled_run s -> exec app s tr = Some s' -> cancelled_run s'.
Proof.
  apply (exec_invariant app cancelled_run). intros s1 ev s2 C H.
  apply step_Step in H. destruct H as [_ H].
  eapply cancelled_run_step; eassumption.
Qed.

Lemma chan_recv_empty {A : Type} (c : Chan A) :
  chan_values c = [] -> chan_recv c = None.
Proof.
  unfold chan_values, chan_recv. intros E. apply app_eq_nil in E.
  destruct E as [E1 E2]. rewrite E1, E2. reflexivity.
Qed.

Lemma select_done_cancelled app s s' :
  Inv_run app s -> Step app s EvRunSelectDone s' -> cancelled_run s'.
Proof.
  intros Ir H. inversion H; subst. unfold cancelled_run, next. cbn.
  rewrite app_nil_r. split; [|left; split; [reflexivity|]].
  - apply (inv_waiting app s Ir). auto.
  - apply (inv_unsent app s Ir). congruence.
Qed.

(** [cancel()] while [run] waits in its select. *)
Lemma cancel_wakes_parked app s ev s' :
  Inv_run app s -> run_pc s = RParked ->
  ev = EvMainSelectSignal \/ ev = EvMainSelectErr ->
  Step app s ev s' -> cancelled_run s'.
Proof.
  intros Ir Hp Hev H.
  destruct H; try (destruct Hev as [X|X]; discriminate X);
    split_delta; unfold cancelled_run; observe; cbn;
    rewrite ?app_nil_r, Hp; cbn [wake_done];
    (split; [apply (inv_waiting app s Ir); auto
            |left; split; [reflexivity|];
             apply (inv_unsent app s Ir); congruence]).
Qed.

(** C4, as amended.  In every run the switch of [run] is executed at most
    once, and a send on [ready] comes before it.  When the context is
    cancelled while [run] waits in its select, or when the select takes
    the cancellation case on being evaluated, the switch is never
    executed and the only value [run] sends is the cancellation error.
    A select evaluated with the context cancelled and no send on [ready]
    pending can only take the cancellation case. *)
Theorem dispatch_once_after_ready (env : Env) (cp : string) (a : cliArgs)
  (app : TradeApp) (s0 : State) (tr : list Event) (st : State) :
  startup env cp a = Running app s0 ->
  exec app s0 tr = Some st ->
  (List.length (dispatches (hist (world st))) <= 1)%nat /\
  gated (hist (world st)) /\
  (forall tr1 ev tr2 s1,
      tr = tr1 ++ ev :: tr2 -> exec app s0 tr1 = Some s1 ->
      run_pc s1 = RParked ->
      ev = EvMainSelectSignal \/ ev = EvMainSelectErr ->
      cancelled_run st) /\
  (In EvRunSelectDone tr -> cancelled_run st) /\
  (ctx_done st = true -> chan_values (ready st) = [] ->
   step app st EvRunSelectReady = None /\
   step app st EvRunSelectPark = None).
Proof.
  intros Hs He.
  destruct (startup_running _ _ _ _ _ Hs) as (_ & _ & _ & E0). subst s0.
  pose proof (Inv_exec app tr _ _ (Inv_initial app) He) as (_ & _ & Ir & _).
  split; [apply (inv_single app st Ir)|].
  split; [apply (inv_gate app st Ir)|]. split; [|split].
  - intros tr1 ev tr2 s1 Et E1 Hp Hev. subst tr.
    rewrite exec_app, E1 in He. cbn in He.
    destruct (step app s1 ev) as [s2|] eqn:E2; [|discriminate].
    pose proof (Inv_exec app tr1 _ _ (Inv_initial app) E1) as (_ & _ & Ir1 & _).
    apply step_Step in E2. destruct E2 as [_ E2].
    eapply cancelled_run_exec; [|exact He].
    eapply cancel_wakes_parked; eassumption.
  - intros Hin. apply in_split in Hin. destruct Hin as (tr1 & tr2 & Et).
    subst tr. rewrite exec_app in He.
    destruct (exec app (initial_state initial_world) tr1) as [s1|] eqn:E1;
      [|discriminate].
    cbn in He.
    destruct (step app s1 EvRunSelectDone) as [s2|] eqn:E2; [|discriminate].
    pose proof (Inv_exec app tr1 _ _ (Inv_initial app) E1) as (_ & _ & Ir1 & _).
    apply step_Step in E2. destruct E2 as [_ E2].
    eapply cancelled_run_exec; [|exact He].
    eapply select_done_cancelled; eassumption.
  - intros Hc E. unfold step. destruct (alive st); [|split; reflexivity]. cbn.
    rewrite (chan_recv_empty _ E), Hc.
    destruct (run_pc st); split; reflexivity.
Qed.

(** ** A session that closes quietly *)

Lemma idle_step app s ev s' :
  idle s -> quiet ev = true -> Step app s ev s' -> idle s'.
Proof.
  intros (Hm & Hg & Hc & He & Hr & Hs & Hv & Hp) Q H.
  destruct H; try discriminate Q; try congruence;
    try (rewrite (chan_recv_empty _ He) in *; discriminate);
    try (rewrite (chan_recv_empty _ Hr) in *; discriminate);
    try (destruct Hp as [Hp|[Hp|Hp]]; congruence).
  all: split_delta; unfold idle; observe; cbn; rewrite ?app_nil_r;
    repeat split; auto.
Qed.

Lemma idle_exec app tr s s' :
  idle s -> forallb quiet tr = true -> exec app s tr = Some s' -> idle s'.
Proof.
  revert s. induction tr as [|ev tr IH]; intros s I Q H; cbn in *.
  - inversion H; subst; exact I.
  - apply andb_prop in Q. destruct Q as [Q1 Q2].
    destruct (step app s ev) as [s1|] eqn:E; [|discriminate].
    apply step_Step in E. destruct E as [_ E].
    eapply IH; [eapply idle_step; eassumption | exact Q2 | exact H].
Qed.

(** C8, as amended.  As long as the trade client neither signals
    readiness nor reports an error, and no operator signal arrives,
    nothing is sent to [errChan] and nothing received from it, whatever
    state changes are reported: [main] has not exited and waits in its
    select, and [run] cannot get past its select either. *)
Theorem no_outcome_while_quiet (env : Env) (cp : string) (a : cliArgs)
  (app : TradeApp) (s0 : State) (tr : list Event) (st : State) :
  startup env cp a = Running app s0 ->
  forallb quiet tr = true ->
  exec app s0 tr = Some st ->
  exit_status st = None /\
  send_results ChErr (hist (world st)) = [] /\
  recvs_on ChErr (hist (world st)) = [] /\
  step app st EvMainSelectErr = None /\
  step app st EvMainSelectSignal = None /\
  step app st EvRunSelectDone = None /\
  step app st EvRunSelectReady = None /\
  step app st EvRunDispatch = None /\
  step app st EvRunSend = None.
Proof.
  intros Hs Q He.
  destruct (startup_running _ _ _ _ _ Hs) as (_ & _ & _ & E0). subst s0.
  assert (idle (initial_state initial_world)) as I0.
  { unfold idle. cbn. repeat split; auto. }
  pose proof (idle_exec app tr _ _ I0 Q He)
    as (Hm & Hg & Hc & Hee & Hr & Hsd & Hv & Hp).
  unfold exit_status, step, alive. rewrite Hm. cbn.
  rewrite (chan_recv_empty _ Hee), (chan_recv_empty _ Hr), Hg, Hc.
  repeat split; auto; destruct Hp as [Hp|[Hp|Hp]]; rewrite Hp; reflexivity.
Qed.

(** ** The call of a mode and its answer *)

Lemma error_lines_app h d : error_lines (h ++ d) = error_lines h ++ error_lines d.
Proof. apply flat_map_app. Qed.

(** What the switch of [run] does, beyond [dispatch_actions]: the call it
    makes, the value it returns, and the lines it prints. *)
Lemma dispatch_outcome (app : TradeApp) (w : World) :
  exists d,
    hist (snd (dispatch app w)) =
      hist w ++ ADispatch (mode_branch (Mode (args app))) :: d /\
    forallb mode_action d = true /\
    calls d = mode_call app /\
    fst (dispatch app w) = mode_result app /\
    error_lines d = [] /\
    (mode_branch (Mode (args app)) <> BDefault ->
     (existsb success_line d = true <-> mode_result app = None)).
Proof.
  unfold dispatch, mode_call, mode_result.
  destruct (mode_branch (Mode (args app))).
  - unfold TradeApp_list. run_M.
    destruct (GetOrders (client app) (marketID app)) as [orders [e|]]; cbn;
      rewrite <- ?app_assoc; cbn; eexists; (split; [reflexivity|]);
      cbn; intuition congruence.
  - unfold TradeApp_balances. run_M.
    destruct (GetBalances (client app)) as [result [e|]]; cbn;
      rewrite <- ?app_assoc; cbn; eexists; (split; [reflexivity|]);
      cbn; intuition congruence.
  - unfold TradeApp_place. run_M.
    destruct (PlaceOrder (client app) (place_params app)) as [order [e|]]; cbn;
      rewrite <- ?app_assoc; cbn; eexists; (split; [reflexivity|]);
      cbn; intuition congruence.
  - unfold TradeApp_cancel. run_M.
    destruct (CancelOrder (client app) (cancel_params app)) as [e|]; cbn;
      rewrite <- ?app_assoc; cbn; eexists; (split; [reflexivity|]);
      cbn; intuition congruence.
  - run_M. exists []. cbn. intuition congruence.
Qed.

(** The dispatch step of [run]: it then holds the answer to the call of
    the mode. *)
Lemma step_dispatch (app : TradeApp) (s s' : State) :
  step app s EvRunDispatch = Some s' ->
  run_pc s' = RSending (mode_result app) /\
  exists d,
    hist (world s') =
      hist (world s) ++ ADispatch (mode_branch (Mode (args app))) :: d /\
    forallb mode_action d = true /\
    calls d = mode_call app /\ error_lines d = [].
Proof.
  unfold step. destruct (alive s); cbn [negb]; [|discriminate].
  destruct (run_pc s); try discriminate.
  unfold run_dispatch, exec_M.
  destruct (dispatch_outcome app (world s)) as (d & Hh & Hm & Hc & Hv & He & _).
  destruct (dispatch app (world s)) as [v w'].
  cbn in Hh, Hv. intros H. inversion H; subst; clear H. cbn.
  split; [reflexivity|]. exists d. auto.
Qed.

(** The same facts for any event, to be used beside the step relation. *)
Lemma step_dispatch_facts (app : TradeApp) (s s' : State) (ev : Event) :
  step app s ev = Some s' ->
  ev = EvRunDispatch ->
  run_pc s' = RSending (mode_result app) /\
  calls (hist (world s')) = calls (hist (world s)) ++ mode_call app /\
  error_lines (hist (world s')) = error_lines (hist (world s)).
Proof.
  intros H E. subst ev.
  destruct (step_dispatch app s s' H) as (Hp & d & Hh & _ & Hc & He).
  split; [exact Hp|]. rewrite Hh, calls_app, error_lines_app.
  change (calls (ADispatch (mode_branch (Mode (args app))) :: d)) with (calls d).
  change (error_lines (ADispatch (mode_branch (Mode (args app))) :: d))
    with (error_lines d).
  rewrite Hc, He, app_nil_r. split; reflexivity.
Qed.

(** ** The calls of the trade client *)

Lemma connect_calls_wake (p : RunPC) :
  connect_calls (wake_done p) = connect_calls p.
Proof. destruct p; reflexivity. Qed.

Lemma Inv_calls_step app s ev s' :
  Inv_run app s -> Inv_calls app s -> step app s ev = Some s' ->
  Inv_calls app s'.
Proof.
  intros Ir I H. pose proof (step_dispatch_facts app s s' ev H) as D.
  apply step_Step in H. destruct H as [Al H]. unfold alive in Al.
  pose proof (inv_waiting app s Ir) as Iw.
  unfold Inv_calls in *.
  destruct H; try specialize (D eq_refl); split_delta.
  all: try (unfold next; cbn [world hist main_pc run_pc];
            rewrite ?calls_app, ?dispatches_app, ?connect_calls_wake; cbn;
            rewrite ?app_nil_r;
            repeat match goal with
                   | X : main_pc _ = _ |- _ => rewrite X in *; clear X
                   | X : run_pc _ = _ |- _ => rewrite X in *; clear X
                   end;
            cbn in *; rewrite ?app_nil_r in *; try exact I;
            try (rewrite I; rewrite <- ?app_assoc; reflexivity); fail).
  - (* [Connect]: nothing was called before *)
    unfold next. cbn [world hist main_pc run_pc]. rewrite calls_app, dispatches_app.
    rewrite I, H, (Iw (or_introl H)). destruct (main_pc s); [| |discriminate Al];
      reflexivity.
  - (* the switch: the call of the mode *)
    destruct D as (_ & Dc & _). unfold next in *.
    cbn [world hist main_pc run_pc] in *. rewrite Dc, I, dispatches_app.
    destruct (mode_actions_silent d H0) as (_ & _ & _ & Sd & _).
    rewrite dispatches_app, Sd, H, (Iw ltac:(auto)).
    destruct (main_pc s); [| |discriminate Al]; cbn; rewrite ?app_nil_r;
      reflexivity.
Qed.

(** A property kept by every step from a state satisfying [Inv] holds
    along every schedule. *)
Lemma exec_invariant_Inv (app : TradeApp) (P : State -> Prop) :
  (forall s ev s', Inv app s -> P s -> step app s ev = Some s' -> P s') ->
  forall tr s s', Inv app s -> P s -> exec app s tr = Some s' -> P s'.
Proof.
  intros Hstep tr. induction tr as [|ev tr IH]; intros s s' I Hs H; cbn in H.
  - inversion H; subst; exact Hs.
  - destruct (step app s ev) as [s1|] eqn:E; [|discriminate].
    apply (IH s1); [eapply Inv_step; eassumption | | exact H].
    eapply Hstep; eassumption.
Qed.

Lemma Inv_calls_exec app tr s s' :
  Inv app s -> Inv_calls app s -> exec app s tr = Some s' -> Inv_calls app s'.
Proof.
  apply (exec_invariant_Inv app (Inv_calls app)).
  intros s1 ev s2 (_ & _ & Ir & _). apply Inv_calls_step. exact Ir.
Qed.

Lemma Inv_calls_initial (app : TradeApp) :
  Inv_calls app (initial_state initial_world).
Proof. reflexivity. Qed.


(** ** What [run] sends *)

Lemma wake_done_sending (p : RunPC) (v : goerror) :
  wake_done p = RSending v ->
  p = RSending v \/ (p = RParked /\ v = Some Canceled).
Proof. destruct p; cbn; intros H; inversion H; auto. Qed.

Lemma wake_done_done (p : RunPC) : wake_done p = RDone -> p = RDone.
Proof. destruct p; cbn; congruence. Qed.

Lemma Inv_outcome_step app s ev s' :
  Inv_run app s -> Inv_outcome app s -> step app s ev = Some s' ->
  Inv_outcome app s'.
Proof.
  intros Ir [Ih Is] H. pose proof (step_dispatch_facts app s s' ev H) as D.
  apply step_Step in H. destruct H as [Al H].
  pose proof (inv_waiting app s Ir) as Iw.
  pose proof (inv_unsent app s Ir) as Iu.
  destruct H; try specialize (D eq_refl); split_delta; constructor; observe;
    silence; cbn; rewrite ?app_nil_r; try assumption.
  all: try (intros X; discriminate X).
  all: try (intros v0 X; discriminate X).
  all: try (intros v0 X; apply wake_done_sending in X;
            destruct X as [X|[X ->]];
            [destruct (Ih _ X) as [(A & B & _)|(A & B)]; [left|right]; auto
            |left; split; [apply Iw; auto | auto]]; fail).
  all: try (intros X; apply wake_done_done in X;
            destruct (Is X) as [(A & B & _)|(A & B)]; [left|right]; auto; fail).
  - (* the cancellation case *)
    intros v0 X. inversion X; subst. left. split; [apply Iw; auto | auto].
  - (* the switch *)
    intros v0 X. inversion X; subst. right. split.
    + intros Y. apply app_eq_nil in Y. destruct Y as [_ Y]. discriminate Y.
    + destruct D as (Dp & _). unfold next in Dp. cbn in Dp.
      inversion Dp; reflexivity.
  - (* the send of [run] *)
    intros _. rewrite Iu by congruence. cbn.
    destruct (Ih v H) as [(A & -> & C)|(A & ->)]; [left|right]; auto.
Qed.

Lemma Inv_outcome_exec app tr s s' :
  Inv app s -> Inv_outcome app s -> exec app s tr = Some s' ->
  Inv_outcome app s'.
Proof.
  apply (exec_invariant_Inv app (Inv_outcome app)).
  intros s1 ev s2 (_ & _ & Ir & _). apply Inv_outcome_step. exact Ir.
Qed.

Lemma Inv_outcome_initial (app : TradeApp) :
  Inv_outcome app (initial_state initial_world).
Proof. constructor; cbn; intros; discriminate. Qed.

(** ** What [main] reports *)

Lemma error_line_mode_action (a : Action) :
  mode_action a = true -> error_line a = [].
Proof.
  destruct a as [f c| |c| | | |]; simpl; try reflexivity.
  destruct c as [l|l|fmt l|fmt l]; try reflexivity.
  intros H. apply String.eqb_eq in H. subst fmt.
  unfold error_line.
  repeat match goal with
         | |- context [match ?x with _ => _ end] => is_var x; destruct x
         end; reflexivity.
Qed.

Lemma error_lines_mode_actions (d : list Action) :
  forallb mode_action d = true -> error_lines d = [].
Proof.
  induction d as [|a d IH]; [reflexivity|].
  cbn [forallb]. intros H. apply andb_prop in H. destruct H as [Ha Hd].
  change (error_lines (a :: d)) with (error_line a ++ error_lines d).
  rewrite (error_line_mode_action a Ha), (IH Hd). reflexivity.
Qed.

Lemma Inv_report_step app s ev s' :
  Inv_report app s -> step app s ev = Some s' -> Inv_report app s'.
Proof.
  intros [In Ie] H. apply step_Step in H. destruct H as [Al H].
  destruct H; split_delta; constructor; observe;
    rewrite ?error_lines_app, ?non_nil_app;
    silence; cbn; rewrite ?app_nil_r; try assumption.
  all: try (intros X; discriminate X).
  all: try (intros X; rewrite (Ie X); reflexivity).
  all: try (intros X; congruence).
  intros X. rewrite (error_lines_mode_actions d) by assumption.
  rewrite app_nil_r. exact (Ie X).
Qed.

Lemma Inv_report_exec app tr s s' :
  Inv_report app s -> exec app s tr = Some s' -> Inv_report app s'.
Proof.
  apply (exec_invariant app (Inv_report app)).
  intros s1 ev s2. apply Inv_report_step.
Qed.

Lemma Inv_report_initial (app : TradeApp) :
  Inv_report app (initial_state initial_world).
Proof. constructor; cbn; intros; reflexivity. Qed.

(** ** The usage text *)

Lemma Inv_usage_step app s ev s' :
  mode_result app <> Some errUnknownMode ->
  reports_unknown_mode ev = false ->
  Inv_chan s -> Inv_usage s -> step app s ev = Some s' -> Inv_usage s'.
Proof.
  intros Hm Hev Ic [Iu Is Ih] H.
  pose proof (step_dispatch_facts app s s' ev H) as D.
  apply step_Step in H. destruct H as [Al H].
  destruct H; try specialize (D eq_refl); split_delta; constructor; observe;
    silence; cbn; rewrite ?app_nil_r; try assumption.
  all: try (intros X; discriminate X).
  all: try (rewrite in_app_iff; cbn; intuition congruence).
  all: try (intros X; apply wake_done_sending in X;
            destruct X as [X|[_ X]]; [exact (Ih X) | discriminate X]).
  - (* nothing [main] receives is the error variable of line 23 *)
    exfalso. apply Is. rewrite (inv_err s Ic).
    destruct (chan_recv_spec _ _ _ (inv_wf_err s Ic) H0) as (_ & E & _).
    rewrite E. apply in_or_app. right. left. reflexivity.
  - rewrite in_app_iff. intros [X|[X|X]]; [exact (Iu X) | discriminate X |].
    rewrite forallb_forall in H0. specialize (H0 _ X). discriminate H0.
  - destruct D as (Dp & _). unfold next in Dp. cbn in Dp.
    inversion Dp; subst. intros X. inversion X. congruence.
  - rewrite in_app_iff. cbn. intros [X|[X|[]]]; [exact (Is X)|].
    inversion X; subst. discriminate Hev.
Qed.

Lemma Inv_usage_exec app tr s s' :
  mode_result app <> Some errUnknownMode ->
  existsb reports_unknown_mode tr = false ->
  Inv app s -> Inv_usage s -> exec app s tr = Some s' -> Inv_usage s'.
Proof.
  intros Hm. revert s. induction tr as [|ev tr IH]; intros s Q I U H; cbn in *.
  - inversion H; subst; exact U.
  - apply orb_false_elim in Q. destruct Q as [Q1 Q2].
    destruct (step app s ev) as [s1|] eqn:E; [|discriminate].
    apply (IH s1); [exact Q2 | eapply Inv_step; eassumption | | exact H].
    destruct I as (Ic & _). eapply Inv_usage_step; eassumption.
Qed.

Lemma Inv_usage_initial : Inv_usage (initial_state initial_world).
Proof. constructor; cbn; auto. discriminate. Qed.

(** ** Reachable states *)

(** The states a run reaches after start-up, with what holds of them. *)
Lemma reachable (env : Env) (cp : string) (a : cliArgs) (app : TradeApp)
  (s0 : State) (tr : list Event) (st : State) :
  startup env cp a = Running app s0 -> exec app s0 tr = Some st ->
  checkCliArgs a = None /\ args app = a /\
  marketID app = common_MarketID lib (MarketID a) /\
  Inv app st /\ Inv_calls app st /\ Inv_outcome app st /\ Inv_report app st.
Proof.
  intros Hs He.
  destruct (startup_running _ _ _ _ _ Hs) as (Hv & Ha & Hm & E0). subst s0.
  split; [exact Hv|]. split; [exact Ha|]. split; [exact Hm|].
  split; [eapply Inv_exec; [apply Inv_initial | exact He]|].
  split; [eapply Inv_calls_exec;
          [apply Inv_initial | apply Inv_calls_initial | exact He]|].
  split; [eapply Inv_outcome_exec;
          [apply Inv_initial | apply Inv_outcome_initial | exact He]|].
  eapply Inv_report_exec; [apply Inv_report_initial | exact He].
Qed.

(** ** The calls of a run *)

Lemma mode_branch_spec (m : string) :
  match mode_branch m with
  | BList => m = "list"
  | BBalances => m = "balances"
  | BPlace => m = "place"
  | BCancel => m = "cancel"
  | BDefault => True
  end.
Proof.
  unfold mode_branch.
  destruct (String.eqb_spec m "list"); [assumption|].
  destruct (String.eqb_spec m "balances"); [assumption|].
  destruct (String.eqb_spec m "place"); [assumption|].
  destruct (String.eqb_spec m "cancel"); [assumption|]. exact I.
Qed.


Lemma mode_call_requested (app : TradeApp) (a : cliArgs) (c : Call) :
  checkCliArgs a = None -> args app = a ->
  marketID app = common_MarketID lib (MarketID a) ->
  In c (mode_call app) -> requested a c.
Proof.
  intros Hv Ha Hm. destruct (checkCliArgs_None a Hv) as (_ & _ & Ho).
  unfold mode_call, cancel_params, place_params. rewrite Ha, Hm.
  pose proof (mode_branch_spec (Mode a)) as B.
  destruct (mode_branch (Mode a)); cbn;
    first [intros [<-|[]] | intros []]; cbn; auto.
Qed.



(** X4.  Every call of the trade client a run makes is one the request
    asks for: [GetOrders] only in mode list, [GetBalances] only in mode
    balances, [PlaceOrder] only in mode place and [CancelOrder] only in
    mode cancel, each on the market of the request; and [CancelOrder] is
    called with the order id of the request, which is not empty. *)
Theorem calls_match_request (env : Env) (cp : string) (a : cliArgs)
  (tr : list Event) (w : World) (st : option Z) (c : Call) :
  main env cp a tr = Some (w, st) ->
  In c (calls (hist w)) ->
  requested a c.
Proof.
  intros Hm Hin. destruct (startup env cp a) as [w0 c0|app s0] eqn:Hs.
  - destruct (main_exit _ _ _ _ _ _ _ _ Hs Hm) as (_ & Ew & _).
    destruct (startup_exit _ _ _ _ _ Hs) as (_ & err & Eh & _).
    subst w. rewrite Eh in Hin. destruct Hin.
  - destruct (main_running _ _ _ _ _ _ _ _ Hs Hm) as (s' & He & _ & Ew & _).
    destruct (reachable _ _ _ _ _ _ _ Hs He)
      as (Hv & Ha & Hk & (_ & _ & Ir & _) & Ic & _ & _).
    subst w. rewrite Ic in Hin. rewrite !in_app_iff in Hin.
    destruct Hin as [Hin|[Hin|Hin]].
    + destruct (run_pc s'); cbn in Hin;
        first [destruct Hin as [<-|[]]; exact I | destruct Hin].
    + apply in_flat_map in Hin. destruct Hin as (b & _ & Hin).
      eapply mode_call_requested; eassumption.
    + destruct (main_pc s'); cbn in Hin;
        first [destruct Hin as [<-|[]]; exact I | destruct Hin].
Qed.

(** X5.  [run] sends at most one value to [errChan].  It is the
    cancellation error when [run] took the cancellation case of its
    select, the context then being cancelled and the switch not executed;
    otherwise the switch was executed and the value is the error the
    trade client answered the call of the mode with, nil on success. *)
Theorem run_sends_command_result (env : Env) (cp : string) (a : cliArgs)
  (app : TradeApp) (s0 : State) (tr : list Event) (st : State) (v : goerror) :
  startup env cp a = Running app s0 ->
  exec app s0 tr = Some st ->
  In v (sent_by_run (hist (world st))) ->
  sent_by_run (hist (world st)) = [v] /\
  (dispatches (hist (world st)) = [] /\ v = Some Canceled /\
   ctx_done st = true \/
   dispatches (hist (world st)) = [mode_branch (Mode a)] /\
   v = mode_result app).
Proof.
  intros Hs He Hin.
  destruct (reachable _ _ _ _ _ _ _ Hs He)
    as (_ & Ha & _ & (_ & _ & Ir & _) & _ & Io & _).
  assert (run_pc st = RDone) as Hp.
  { destruct (run_pc st) eqn:E; try reflexivity;
      rewrite (inv_unsent app st Ir) in Hin by congruence; destruct Hin. }
  pose proof (inv_single app st Ir) as L.
  pose proof (inv_branch app st Ir) as Ib.
  destruct (inv_sent app st Io Hp) as [(Hd & Hs' & Hc)|(Hd & Hs')];
    rewrite Hs' in Hin |- *; destruct Hin as [<-|[]];
    (split; [reflexivity|]).
  - left. auto.
  - right. split; [|reflexivity].
    destruct (dispatches (hist (world st))) as [|b [|b' l]];
      [contradiction | | cbn in L; lia].
    rewrite (Ib b (or_introl eq_refl)), Ha. reflexivity.
Qed.

(** ** The "Error:" lines and the usage text *)

Lemma non_nil_length (l : list goerror) :
  (List.length (non_nil l) <= List.length l)%nat.
Proof.
  unfold non_nil.
  induction l as [|[e|] l IH]; cbn [flat_map app List.length]; lia.
Qed.

(** X6.  Without [--verbose] the errors printed on "Error:" lines are
    exactly the errors [main] received from [errChan]: at most one such
    line is printed in a run, and none after a failed start-up. *)
Theorem error_lines_without_verbose (env : Env) (cp : string) (a : cliArgs)
  (tr : list Event) (w : World) (st : option Z) :
  main env cp a tr = Some (w, st) ->
  Verbose a = false ->
  error_lines (hist w) = non_nil (recvs_on ChErr (hist w)) /\
  (List.length (error_lines (hist w)) <= 1)%nat.
Proof.
  intros Hm Hq. destruct (startup env cp a) as [w0 c0|app s0] eqn:Hs.
  - destruct (main_exit _ _ _ _ _ _ _ _ Hs Hm) as (_ & Ew & _).
    destruct (startup_exit _ _ _ _ _ Hs) as (_ & err & Eh & _).
    subst w. rewrite Eh. cbn. split; [reflexivity | lia].
  - destruct (main_running _ _ _ _ _ _ _ _ Hs Hm) as (s' & He & _ & Ew & _).
    destruct (reachable _ _ _ _ _ _ _ Hs He)
      as (_ & Ha & _ & (_ & Im & _ & _) & _ & _ & Ip).
    subst w. rewrite <- Ha in Hq.
    rewrite (inv_error_lines app s' Ip Hq). split; [reflexivity|].
    pose proof (inv_once app s' Im) as L.
    pose proof (non_nil_length (recvs_on ChErr (hist (world s')))). lia.
Qed.

(** X7.  The usage text of line 85 is never printed as long as the trade
    client neither answers the call of the mode with the error variable
    of line 23 nor hands it to the error handler: [run] itself never
    sends that error, since a validated mode never reaches the default
    branch of the switch. *)
Theorem usage_never_printed (env : Env) (cp : string) (a : cliArgs)
  (app : TradeApp) (s0 : State) (tr : list Event) (st : State) :
  startup env cp a = Running app s0 ->
  exec app s0 tr = Some st ->
  mode_result app <> Some errUnknownMode ->
  existsb reports_unknown_mode tr = false ->
  ~ In AUsage (hist (world st)) /\
  ~ In (Some errUnknownMode) (sends_on ChErr (hist (world st))).
Proof.
  intros Hs He Hm Hq.
  destruct (startup_running _ _ _ _ _ Hs) as (_ & _ & _ & E0). subst s0.
  pose proof (Inv_usage_exec app tr _ _ Hm Hq (Inv_initial app)
                Inv_usage_initial He) as [Iu Is _].
  split; assumption.
Qed.

(** ** The cancellation error *)

Lemma past_select_step app s ev s' :
  main_pc s <> MSelect -> Step app s ev s' ->
  main_pc s' <> MSelect /\
  recvs_on ChErr (hist (world s')) = recvs_on ChErr (hist (world s)).
Proof.
  intros Hp H.
  destruct H; try contradiction; split_delta; observe; silence; cbn;
    rewrite ?app_nil_r; (split; [first [assumption | discriminate] | reflexivity]).
Qed.

Lemma past_select_exec app tr s s' :
  main_pc s <> MSelect -> exec app s tr = Some s' ->
  main_pc s' <> MSelect /\
  recvs_on ChErr (hist (world s')) = recvs_on ChErr (hist (world s)).
Proof.
  revert s. induction tr as [|ev tr IH]; intros s Hp H; cbn in H.
  - inversion H; subst. auto.
  - destruct (step app s ev) as [s1|] eqn:E; [|discriminate].
    apply step_Step in E. destruct E as [_ E].
    destruct (past_select_step app s ev s1 Hp E) as [Hp1 R1].
    destruct (IH s1 Hp1 H) as [Hp2 R2]. split; [exact Hp2 | congruence].
Qed.

(** X8.  The cancellation error is never what [main] acts on: once [run]
    has taken the cancellation case of its select, [main] has already
    left its own select, and it receives nothing from [errChan] from
    then on. *)
Theorem cancellation_never_received (env : Env) (cp : string) (a : cliArgs)
  (app : TradeApp) (s0 : State) (tr1 tr2 : list Event) (st1 st : State) :
  startup env cp a = Running app s0 ->
  exec app s0 tr1 = Some st1 ->
  cancelled_run st1 ->
  exec app st1 tr2 = Some st ->
  main_pc st1 <> MSelect /\
  recvs_on ChErr (hist (world st)) = recvs_on ChErr (hist (world st1)) /\
  step app st EvMainSelectErr = None.
Proof.
  intros Hs He1 [Hd Hc] He2.
  destruct (reachable _ _ _ _ _ _ _ Hs He1)
    as (_ & _ & _ & (_ & Im & _ & _) & _ & Io & _).
  assert (ctx_done st1 = true) as Hx.
  { destruct Hc as [[Hp _]|[Hp _]].
    - destruct (inv_holding app st1 Io _ Hp) as [(_ & _ & X)|(X & _)];
        [exact X | contradiction].
    - destruct (inv_sent app st1 Io Hp) as [(_ & _ & X)|(X & _)];
        [exact X | contradiction]. }
  assert (main_pc st1 <> MSelect) as Hp.
  { intros X. destruct (inv_select app st1 Im X) as [_ Y]. congruence. }
  destruct (past_select_exec app tr2 st1 st Hp He2) as [Hp2 R].
  split; [exact Hp|]. split; [exact R|].
  unfold step. destruct (alive st); [|reflexivity]. cbn.
  destruct (main_pc st); [contradiction | reflexivity | reflexivity].
Qed.

(** ** An operator signal *)

(** X9.  While [main] waits in its select, an operator signal ends the
    program: the signal is delivered to the channel of line 74, [main]
    takes the signal case and cancels the context, prints "Closing
    connection...", calls [Close] and exits with the status [Close]
    decides, whatever [run] and the handlers are doing.  Nothing is said
    of a signal that arrives once [main] is past its select. *)
Theorem operator_interrupt_exits (env : Env) (cp : string) (a : cliArgs)
  (app : TradeApp) (s0 : State) (tr : list Event) (st : State) :
  startup env cp a = Running app s0 ->
  exec app s0 tr = Some st ->
  main_pc st = MSelect ->
  exists st',
    exec app st interrupt_schedule = Some st' /\
    exit_status st' = Some (close_status app) /\
    hist (world st') =
    hist (world st) ++
    [ACancel; ALog (logFlags (world st)) (Printf "Closing connection..." []);
     ACall CClose]
    ++ close_tail (logFlags (world st)) (Close (client app)).
Proof.
  intros Hs He Hp.
  destruct (reachable _ _ _ _ _ _ _ Hs He) as (_ & _ & _ & _ & _ & _ & Ip).
  pose proof (inv_notifying app st Ip Hp) as Hn.
  unfold interrupt_schedule, exit_status.
  destruct st as [[f h] mp rp cd sg nt ec rd le]. cbn in Hn, Hp |- *.
  subst mp nt. cbn. (eexists; split; [reflexivity|]).
  unfold main_close, close_status. destruct (Close (client app)); cbn;
    rewrite <- ?app_assoc; split; reflexivity.
Qed.

(** ** Saved errors and state changes *)

(** X10.  In verbose mode every state-change report prints exactly one
    line and takes at most one value out of [lastErrChan], the oldest:
    when that value is an error the line carries it, when it is nil or
    when nothing is pending the line is the plain one. *)
Theorem state_change_takes_oldest_saved (env : Env) (cp : string)
  (a : cliArgs) (app : TradeApp) (s0 : State) (tr : list Event)
  (st st' : State) (oldState state : ConnState lib) :
  startup env cp a = Running app s0 ->
  exec app s0 tr = Some st ->
  step app st (CbStateChange oldState state) = Some st' ->
  hist (world st') =
  hist (world st) ++
  match chan_values (lastErrChan st) with
  | Some e :: _ =>
      [ARecv ChLastErr (Some e);
       ALog (logFlags (world st)) (state_line_err oldState state e)]
  | None :: _ =>
      [ARecv ChLastErr None;
       ALog (logFlags (world st)) (state_line oldState state)]
  | [] => [ALog (logFlags (world st)) (state_line oldState state)]
  end /\
  chan_values (lastErrChan st') = tl (chan_values (lastErrChan st)).
Proof.
  intros Hs He H.
  destruct (reachable _ _ _ _ _ _ _ Hs He) as (_ & _ & _ & (Ic & _) & _).
  pose proof (inv_wf_last st Ic) as W.
  apply step_Step in H. destruct H as [_ H].
  inversion H; subst; unfold next; cbn [world hist lastErrChan].
  all: match goal with
       | X : chan_recv _ = Some _ |- _ =>
           destruct (chan_recv_spec _ _ _ W X) as (_ & E & _); rewrite E
       | X : chan_recv _ = None |- _ => rewrite (chan_recv_none _ X)
       end; split; reflexivity.
Qed.

Lemma empty_chan {A : Type} (c : Chan A) :
  chan_values c = [] -> cap c = 1%nat -> c = mkChan 1 [] [].
Proof.
  destruct c as [n b q]. unfold chan_values. cbn. intros E ->.
  apply app_eq_nil in E. destruct E as [-> ->]. reflexivity.
Qed.

(** X11.  In verbose mode, when no saved error is pending, an error
    reported as disconnecting is saved without blocking the handler, and
    the next state-change report prints it on its line and leaves
    nothing pending. *)
Theorem saved_error_shown_on_next_state_change (env : Env) (cp : string)
  (a : cliArgs) (app : TradeApp) (s0 : State) (tr : list Event) (st : State)
  (mID : MarketIDType lib) (e : error) (oldState state : ConnState lib) :
  startup env cp a = Running app s0 ->
  exec app s0 tr = Some st ->
  Verbose a = true ->
  exit_status st = None ->
  chan_values (lastErrChan st) = [] ->
  exists st',
    exec app st [CbErrorVerbose mID (Some e) true; CbStateChange oldState state]
    = Some st' /\
    hist (world st') =
    hist (world st) ++
    [ASend ByOnErrorVerbose ChLastErr (Some e) Sent;
     ARecv ChLastErr (Some e);
     ALog (logFlags (world st)) (state_line_err oldState state e)] /\
    chan_values (lastErrChan st') = [].
Proof.
  intros Hs He Hv Hx Hl.
  destruct (reachable _ _ _ _ _ _ _ Hs He) as (_ & Ha & _ & (Ic & _) & _).
  pose proof (empty_chan _ Hl (inv_cap_last st Ic)) as El.
  rewrite <- Ha in Hv. unfold exit_status in Hx.
  destruct st as [[f h] mp rp cd sg nt ec rd le]. cbn in El, Hx |- *.
  subst le. unfold step, alive. cbn. rewrite Hv.
  destruct mp as [| |code]; [| |discriminate Hx]; cbn;
    (eexists; split; [reflexivity|]); cbn; rewrite <- ?app_assoc;
    split; reflexivity.
Qed.

(** ** The outcome reaches [main] *)

(** X12.  While [main] waits in its select with nothing in [errChan], an
    error handed to the error handler is what [main] receives next: it
    cancels the context, prints the error, closes the connection and
    exits with the status [Close] decides. *)
Theorem reported_error_ends_session (env : Env) (cp : string) (a : cliArgs)
  (app : TradeApp) (s0 : State) (tr : list Event) (st : State)
  (mID : MarketIDType lib) (e : error) (disconnecting : bool) :
  startup env cp a = Running app s0 ->
  exec app s0 tr = Some st ->
  main_pc st = MSelect ->
  chan_values (errChan st) = [] ->
  exists st',
    exec app st [CbErrorOutcome mID (Some e) disconnecting; EvMainSelectErr;
                 EvMainClose] = Some st' /\
    exit_status st' = Some (close_status app) /\
    hist (world st') =
    hist (world st) ++
    [ASend ByOnError ChErr (Some e) Sent; ARecv ChErr (Some e); ACancel]
    ++ err_report (logFlags (world st)) (Some e)
    ++ [ALog (logFlags (world st)) (Printf "Closing connection..." []);
        ACall CClose]
    ++ close_tail (logFlags (world st)) (Close (client app)).
Proof.
  intros Hs He Hp Hl.
  destruct (reachable _ _ _ _ _ _ _ Hs He) as (_ & _ & _ & (Ic & _) & _).
  pose proof (empty_chan _ Hl (inv_cap_err st Ic)) as El.
  destruct st as [[f h] mp rp cd sg nt ec rd le]. cbn in El, Hp |- *.
  subst ec mp. unfold step, alive. cbn.
  unfold main_close, close_status.
  destruct (Close (client app)); destruct e; cbn;
    (eexists; split; [reflexivity|]); cbn; rewrite <- ?app_assoc;
    split; reflexivity.
Qed.

(** The dispatch step as a state. *)
Lemma step_dispatch_state (app : TradeApp) (s : State) :
  alive s = true -> run_pc s = RReady ->
  exists d,
    step app s EvRunDispatch =
    Some (next s (ADispatch (mode_branch (Mode (args app))) :: d)
               (main_pc s) (RSending (mode_result app)) (ctx_done s)
               (signals s) (notifying s) (errChan s) (ready s)
               (lastErrChan s)) /\
    forallb mode_action d = true /\
    calls d = mode_call app /\ error_lines d = [].
Proof.
  intros Al Hp. unfold step. rewrite Al, Hp. cbn [negb].
  unfold run_dispatch, exec_M.
  destruct (dispatch_outcome app (world s)) as (d & Hh & Hm & Hc & Hv & Hd & _).
  destruct (dispatch_actions app (world s)) as (_ & _ & _ & Hf).
  destruct (dispatch app (world s)) as [v [f' h']].
  cbn in Hh, Hv, Hf. subst v f' h'. exists d.
  split; [|auto]. destruct s as [[f h] mp rp cd sg nt ec rd le]. reflexivity.
Qed.

(** Evaluate the steps, leaving the observers of the history folded. *)
Ltac run_steps :=
  cbn -[calls recvs_on sent_by_run error_lines non_nil dispatches sends_on
        send_results].

(** X13.  When [run] has received the readiness signal while [main]
    waits in its select with nothing in [errChan], the run goes on to
    its end: the call of the mode is made, its answer is the one value
    [run] sends and the one value [main] receives, an error among them
    is printed, and [main] closes the connection and exits. *)
Theorem command_result_reaches_main (env : Env) (cp : string) (a : cliArgs)
  (app : TradeApp) (s0 : State) (tr : list Event) (st : State) :
  startup env cp a = Running app s0 ->
  exec app s0 tr = Some st ->
  run_pc st = RReady ->
  main_pc st = MSelect ->
  chan_values (errChan st) = [] ->
  exists st',
    exec app st [EvRunDispatch; EvRunSend; EvMainSelectErr; EvMainClose]
    = Some st' /\
    exit_status st' = Some (close_status app) /\
    calls (hist (world st')) =
      calls (hist (world st)) ++ mode_call app ++ [CClose] /\
    sent_by_run (hist (world st')) = [mode_result app] /\
    recvs_on ChErr (hist (world st')) = [mode_result app] /\
    error_lines (hist (world st')) =
      error_lines (hist (world st)) ++ non_nil [mode_result app].
Proof.
  intros Hs He Hr Hp Hl.
  destruct (reachable _ _ _ _ _ _ _ Hs He)
    as (_ & _ & _ & (Ic & Im & Ir & _) & _).
  pose proof (empty_chan _ Hl (inv_cap_err st Ic)) as El.
  destruct (inv_select app st Im Hp) as [Hrecv _].
  assert (sent_by_run (hist (world st)) = []) as Hsent.
  { apply (inv_unsent app st Ir). congruence. }
  destruct (step_dispatch_state app st) as (d & E1 & Hm & Hc & Hd);
    [unfold alive; rewrite Hp; reflexivity | exact Hr |].
  destruct (mode_actions_silent d Hm) as (_ & _ & Sr & _ & _ & Ss).
  cbn [exec]. rewrite E1. clear E1 Ic Im Ir He Hl.
  destruct st as [[f h] mp rp cd sg nt ec rd le].
  cbn [errChan main_pc run_pc world hist] in El, Hp, Hr, Hrecv, Hsent.
  subst ec mp rp. unfold next, step, alive. run_steps.
  unfold main_close, close_status.
  destruct (Close (client app)); destruct (mode_result app) as [[| |msg]|];
    run_steps; (eexists; split; [reflexivity|]); run_steps;
    rewrite <- ?app_assoc;
    rewrite ?calls_app, ?sent_by_run_app, ?recvs_on_app, ?error_lines_app;
    rewrite Hrecv, Hsent;
    change (calls (ADispatch (mode_branch (Mode (args app))) :: d))
      with (calls d);
    change (sent_by_run (ADispatch (mode_branch (Mode (args app))) :: d))
      with (sent_by_run d);
    change (recvs_on ChErr (ADispatch (mode_branch (Mode (args app))) :: d))
      with (recvs_on ChErr d);
    change (error_lines (ADispatch (mode_branch (Mode (args app))) :: d))
      with (error_lines d);
    rewrite Hc, Hd, Ss, (Sr ChErr); cbn; rewrite ?app_nil_r;
    (split; [reflexivity|]); (split; [reflexivity|]);
    (split; [reflexivity|]); split; reflexivity.
Qed.

(** ** Readiness signalled late *)

Lemma ready_cap_step app s ev s' :
  Inv_chan s -> cap (ready s) = 0%nat -> Step app s ev s' ->
  cap (ready s') = 0%nat.
Proof.
  intros Ic Hc H. pose proof (inv_wf_ready s Ic) as W.
  destruct H; unfold next; cbn [ready]; try exact Hc; chan_facts; congruence.
Qed.

Lemma ready_cap (app : TradeApp) (tr : list Event) (st : State) :
  exec app (initial_state initial_world) tr = Some st -> cap (ready st) = 0%nat.
Proof.
  intros He.
  apply (exec_invariant_Inv app (fun s => cap (ready s) = 0%nat)) with
    (tr := tr) (s := initial_state initial_world);
    [|apply Inv_initial | reflexivity | exact He].
  intros s ev s' (Ic & _) Hc H. apply step_Step in H. destruct H as [_ H].
  eapply ready_cap_step; eassumption.
Qed.

(** [run] is past the select of line 198. *)
Lemma past_run_select_step app s ev s' :
  run_pc s = RReady \/ (exists v, run_pc s = RSending v) \/ run_pc s = RDone ->
  Step app s ev s' ->
  (run_pc s' = RReady \/ (exists v, run_pc s' = RSending v) \/ run_pc s' = RDone)
  /\ recvs_on ChReady (hist (world s')) = recvs_on ChReady (hist (world s)).
Proof.
  intros Hp H.
  destruct H; split_delta; observe; silence; cbn; rewrite ?app_nil_r;
    try (split; [exact Hp | reflexivity]);
    try (split; [solve [eauto] | reflexivity]);
    try (destruct Hp as [Hp|[[v0 Hp]|Hp]]; congruence);
    try (split; [|reflexivity];
         destruct Hp as [Hp|[[v0 Hp]|Hp]]; rewrite Hp; cbn; solve [eauto]).
Qed.

(** X14.  The channel [ready] has no buffer and [run] receives from it
    only in its select.  A readiness callback that arrives once [run] is
    past that select therefore blocks in its send, and stays blocked:
    nothing is received from [ready] from then on. *)
Theorem late_readiness_blocks (env : Env) (cp : string) (a : cliArgs)
  (app : TradeApp) (s0 : State) (tr tr2 : list Event) (st st' st'' : State) :
  startup env cp a = Running app s0 ->
  exec app s0 tr = Some st ->
  run_pc st = RReady \/ (exists v, run_pc st = RSending v) \/ run_pc st = RDone ->
  step app st CbReady = Some st' ->
  exec app st' tr2 = Some st'' ->
  hist (world st') =
    hist (world st) ++ [ASend ByOnReady ChReady None Blocked] /\
  recvs_on ChReady (hist (world st'')) = recvs_on ChReady (hist (world st)).
Proof.
  intros Hs He Hp H1 H2.
  destruct (startup_running _ _ _ _ _ Hs) as (_ & _ & _ & E0). subst s0.
  pose proof (ready_cap app tr st He) as Hc.
  apply step_Step in H1. destruct H1 as [_ H1].
  destruct (past_run_select_step app st CbReady st' Hp H1) as [Hp' R1].
  assert (recvs_on ChReady (hist (world st'')) =
          recvs_on ChReady (hist (world st'))) as R2.
  { clear H1 R1. revert st' Hp' H2.
    induction tr2 as [|ev tr2 IH]; intros s1 Hp1 H; cbn in H.
    - inversion H; subst. reflexivity.
    - destruct (step app s1 ev) as [s2|] eqn:E; [|discriminate].
      apply step_Step in E. destruct E as [_ E].
      destruct (past_run_select_step app s1 ev s2 Hp1 E) as [Hp2 R].
      rewrite (IH s2 Hp2 H). exact R. }
  split; [|congruence].
  inversion H1; subst.
  - destruct Hp as [Hp|[[v0 Hp]|Hp]]; congruence.
  - unfold next. cbn [world hist].
    match goal with
    | X : chan_send (ready st) tt = _ |- _ =>
        unfold chan_send in X; rewrite Hc in X; cbn in X; inversion X
    end.
    reflexivity.
Qed.



(** ** Start-up *)

(** X1.  The application [main] runs is built by [NewTradeClient] from
    the chosen configuration: the one read from the file when a path is
    given, the default one otherwise.  The other source is not
    consulted: start-up is the same under any two environments that
    agree on [NewTradeClient] and on the chosen source. *)
Theorem startup_uses_chosen_config (env : Env) (cp : string) (a : cliArgs) :
  (forall app s0,
      startup env cp a = Running app s0 ->
      exists cfg,
        chosen_config env cp = (cfg, None) /\
        websocket_NewTradeClient env (trade_client_params a cfg)
        = (client app, None)) /\
  (forall env',
      websocket_NewTradeClient env' = websocket_NewTradeClient env ->
      (cp = "" -> config_Get env' = config_Get env) ->
      (cp <> "" -> config_NewFromPath env' cp = config_NewFromPath env cp) ->
      startup env' cp a = startup env cp a).
Proof.
  split.
  - intros app s0. unfold startup, fail_start, NewTradeApp, chosen_config.
    destruct (checkCliArgs a); [discriminate|].
    destruct (if (cp =? "")%string then _ else _) as [cfg [e|]]; [discriminate|].
    destruct (websocket_NewTradeClient env _) as [tc [e|]] eqn:E; [discriminate|].
    intros H. inversion H; subst. exists cfg. split; [reflexivity | exact E].
  - intros env' Ht Hg Hp. unfold startup, NewTradeApp. rewrite Ht.
    destruct (String.eqb_spec cp "") as [E|N].
    + rewrite (Hg E). reflexivity.
    + rewrite (Hp N). reflexivity.
Qed.

(** ** The switch of [run] *)


(** ** Argument validation, error by error *)

Lemma unknown_mode_iff (m : string) :
  negb (m =? "place")%string && negb (m =? "cancel")%string
  && negb (m =? "list")%string && negb (m =? "balances")%string = true <->
  ~ In m known_modes.
Proof.
  unfold known_modes.
  destruct (String.eqb_spec m "place"); destruct (String.eqb_spec m "cancel");
    destruct (String.eqb_spec m "list"); destruct (String.eqb_spec m "balances");
    cbn; split; intros H; try discriminate H; try reflexivity;
    try (exfalso; apply H; auto; fail); intuition congruence.
Qed.

Lemma known_mode_iff (m : string) :
  negb (m =? "place")%string && negb (m =? "cancel")%string
  && negb (m =? "list")%string && negb (m =? "balances")%string = false <->
  In m known_modes.
Proof.
  pose proof (unknown_mode_iff m) as U.
  destruct (negb (m =? "place")%string && negb (m =? "cancel")%string
            && negb (m =? "list")%string && negb (m =? "balances")%string).
  - split; [discriminate|]. intros H. exfalso. apply U; [reflexivity | exact H].
  - split; [|reflexivity]. intros _. unfold known_modes in *. cbn in *.
    destruct (String.eqb_spec m "list"); [auto|].
    destruct (String.eqb_spec m "balances"); [auto|].
    destruct (String.eqb_spec m "place"); [auto|].
    destruct (String.eqb_spec m "cancel"); [auto|].
    exfalso. assert (false = true) as X; [|discriminate X].
    apply U. intuition congruence.
Qed.

(** X17.  [checkCliArgs] answers with the first failed check, in this
    order: an empty mode, a mode that is none of the four, a market id
    of zero, and mode cancel with an empty order id.  So an empty mode is
    reported as such whatever the other arguments, an unknown mode is
    reported before a zero market id, and the order id is looked at only
    for mode cancel with a market id. *)
Theorem checkCliArgs_first_failure (a : cliArgs) (e : error) :
  checkCliArgs a = Some e <->
  (Mode a = "" /\ e = errorString "mode is not specified") \/
  (Mode a <> "" /\ ~ In (Mode a) known_modes /\ e = errUnknownMode) \/
  (In (Mode a) known_modes /\ MarketID a = 0 /\
   e = errorString "marketid is empty") \/
  (Mode a = "cancel" /\ MarketID a <> 0 /\ OrderID a = "" /\
   e = errorString "orderid is empty").
Proof.
  assert (In "cancel" known_modes) as Kc by (cbn; auto).
  assert (~ In "" known_modes) as Ke.
  { cbn. intros [X|[X|[X|[X|[]]]]]; discriminate X. }
  unfold checkCliArgs.
  destruct (String.eqb_spec (Mode a) "") as [E0|N0].
  { split.
    - intros H. inversion H. left. auto.
    - intros [[_ ->]|[[N _]|[[Hin _]|[Hc _]]]]; try reflexivity;
        try contradiction; exfalso.
      + rewrite E0 in Hin. contradiction.
      + rewrite E0 in Hc. discriminate Hc. }
  destruct (negb (Mode a =? "place")%string && negb (Mode a =? "cancel")%string
            && negb (Mode a =? "list")%string
            && negb (Mode a =? "balances")%string) eqn:U.
  { apply unknown_mode_iff in U. split.
    - intros H. inversion H. right. left. auto.
    - intros [[X _]|[[_ [_ ->]]|[[X _]|[X _]]]]; try reflexivity;
        try contradiction; exfalso. apply U. rewrite X. exact Kc. }
  apply known_mode_iff in U.
  destruct (Z.eqb_spec (MarketID a) 0) as [Em|Nm].
  { split.
    - intros H. inversion H. right. right. left. auto.
    - intros [[X _]|[[_ [X _]]|[[_ [_ ->]]|[_ [X _]]]]]; try reflexivity;
        contradiction. }
  destruct ((Mode a =? "cancel")%string && (OrderID a =? "")%string) eqn:C.
  { apply andb_prop in C. destruct C as [C1 C2].
    apply String.eqb_eq in C1, C2. split.
    - intros H. inversion H. right. right. right. auto.
    - intros [[X _]|[[_ [X _]]|[[_ [X _]]|[_ [_ [_ ->]]]]]]; try reflexivity;
        contradiction. }
  split; [discriminate|].
  intros [[X _]|[[_ [X _]]|[[_ [X _]]|[X [_ [Y _]]]]]]; try contradiction.
  exfalso. rewrite X, Y in C. discriminate C.
Qed.

(** ** What the handlers do with the reports *)

Lemma sent_by_on_error_app h d :
  sent_by_on_error (h ++ d) = sent_by_on_error h ++ sent_by_on_error d.
Proof. apply flat_map_app. Qed.

Lemma subscription_lines_app h d :
  subscription_lines (h ++ d) = subscription_lines h ++ subscription_lines d.
Proof. apply flat_map_app. Qed.

Lemma sent_by_on_error_mode_actions (d : list Action) :
  forallb mode_action d = true -> sent_by_on_error d = [].
Proof.
  induction d as [|a d IH]; [reflexivity|].
  cbn [forallb]. intros H. apply andb_prop in H. destruct H as [Ha Hd].
  change (a :: d) with ([a] ++ d). rewrite sent_by_on_error_app.
  rewrite (IH Hd), app_nil_r.
  destruct a as [f c| |c| | | |]; simpl in Ha; try discriminate; reflexivity.
Qed.

(** No mode function prints a "Subscription failed" line. *)
Lemma dispatch_subscription_lines (app : TradeApp) (w : World) :
  subscription_lines (hist (snd (dispatch app w))) = subscription_lines (hist w).
Proof.
  unfold dispatch, subscription_lines.
  destruct (mode_branch (Mode (args app)));
    [unfold TradeApp_list; run_M;
     destruct (GetOrders (client app) (marketID app)) as [orders [e|]]
    |unfold TradeApp_balances; run_M;
     destruct (GetBalances (client app)) as [result [e|]]
    |unfold TradeApp_place; run_M;
     destruct (PlaceOrder (client app) (place_params app)) as [order [e|]]
    |unfold TradeApp_cancel; run_M;
     destruct (CancelOrder (client app) (cancel_params app)) as [e|]
    |run_M];
    cbn; rewrite !flat_map_app; cbn; rewrite ?app_nil_r; reflexivity.
Qed.

Lemma step_dispatch_subscription (app : TradeApp) (s s' : State) (ev : Event) :
  step app s ev = Some s' -> ev = EvRunDispatch ->
  subscription_lines (hist (world s')) = subscription_lines (hist (world s)).
Proof.
  intros H E. subst ev. unfold step in H.
  destruct (alive s); cbn [negb] in H; [|discriminate].
  destruct (run_pc s); try discriminate.
  unfold run_dispatch, exec_M in H.
  pose proof (dispatch_subscription_lines app (world s)) as D.
  destruct (dispatch app (world s)) as [v w']. cbn in D.
  inversion H; subst. cbn. exact D.
Qed.

Lemma reports_step app s ev s' :
  step app s ev = Some s' ->
  sends_on ChLastErr (hist (world s')) =
    sends_on ChLastErr (hist (world s)) ++ saved_reports [ev] /\
  sent_by_on_error (hist (world s')) =
    sent_by_on_error (hist (world s)) ++ outcome_reports [ev] /\
  subscription_lines (hist (world s')) =
    subscription_lines (hist (world s)) ++ failed_reports [ev].
Proof.
  intros H. pose proof (step_dispatch_subscription app s s' ev H) as D.
  apply step_Step in H. destruct H as [_ H].
  destruct H; try specialize (D eq_refl); split_delta; observe;
    rewrite ?sent_by_on_error_app, ?subscription_lines_app; silence;
    cbn; rewrite ?app_nil_r; try (repeat split; reflexivity).
  split; [reflexivity|].
  rewrite (sent_by_on_error_mode_actions d) by assumption. rewrite app_nil_r.
  split; [reflexivity|].
  unfold next in D. cbn [world hist] in D.
  rewrite !subscription_lines_app in D. cbn in D. exact D.
Qed.

Lemma reports_exec app tr :
  forall s s',
    exec app s tr = Some s' ->
    sends_on ChLastErr (hist (world s')) =
      sends_on ChLastErr (hist (world s)) ++ saved_reports tr /\
    sent_by_on_error (hist (world s')) =
      sent_by_on_error (hist (world s)) ++ outcome_reports tr /\
    subscription_lines (hist (world s')) =
      subscription_lines (hist (world s)) ++ failed_reports tr.
Proof.
  induction tr as [|ev tr IH]; intros s s' H; cbn in H.
  - inversion H; subst. cbn. rewrite !app_nil_r. repeat split; reflexivity.
  - destruct (step app s ev) as [s1|] eqn:E; [|discriminate].
    destruct (reports_step app s ev s1 E) as (A1 & A2 & A3).
    destruct (IH s1 s' H) as (B1 & B2 & B3).
    change (ev :: tr) with ([ev] ++ tr).
    unfold saved_reports, outcome_reports, failed_reports in *.
    rewrite !flat_map_app, B1, B2, B3, A1, A2, A3, <- !app_assoc.
    repeat split; reflexivity.
Qed.

(** X18.  What the handlers do is decided by what they are handed.  In
    verbose mode every error reported as disconnecting is sent to
    [lastErrChan], a nil one included; the outcome handler sends to
    [errChan] every error that is not nil and nothing else; and a
    "Subscription failed" line is printed for every subscription result
    with at least one failure, and for no other.  All three in the order
    of the reports. *)
Theorem handlers_forward_reports (env : Env) (cp : string) (a : cliArgs)
  (app : TradeApp) (s0 : State) (tr : list Event) (st : State) :
  startup env cp a = Running app s0 ->
  exec app s0 tr = Some st ->
  sends_on ChLastErr (hist (world st)) = saved_reports tr /\
  sent_by_on_error (hist (world st)) = outcome_reports tr /\
  subscription_lines (hist (world st)) = failed_reports tr.
Proof.
  intros Hs He.
  destruct (startup_running _ _ _ _ _ Hs) as (_ & _ & _ & E0). subst s0.
  exact (reports_exec app tr _ _ He).
Qed.


End Properties.

(** * Examples on the concrete collaborator *)

Import Sample.

(** Split the conjunctions of a goal and evaluate each part. *)
Ltac evaluate :=
  repeat match goal with
         | |- _ /\ _ => split
         | |- exists _, _ => eexists
         end;
  vm_compute; try reflexivity.

(** ** Exit status *)



(** The same successful run exits with 0 when [Close] succeeds and with
    1, through [log.Fatalf], when [Close] fails. *)
Lemma close_error_changes_exit_status :
  (exists w,
     main (env (session None None None)) "" list_args full_run
     = Some (w, Some 0) /\
     recvs_on ChErr (hist w) = [None]) /\
  (exists w,
     main (env (session None None (Some (errorString "broken pipe"))))
          "" list_args full_run = Some (w, Some 1) /\
     recvs_on ChErr (hist w) = [None] /\
     In (ALog LstdFlags
              (Fatalf "Failed to close connection: %s"
                      [VErr (Some (errorString "broken pipe"))])) (hist w)).
Proof.
  evaluate. repeat (first [left; reflexivity | right]).
Qed.

Lemma close_failure_is_fatal_witness :
  exists app s0 w,
    startup (env (session None None (Some (errorString "broken pipe"))))
            "" list_args = Running app s0 /\
    main (env (session None None (Some (errorString "broken pipe"))))
         "" list_args full_run = Some (w, Some 1) /\
    match Close (client app) with
    | Some e =>
        1 = 1 /\
        exists f h1 h2,
          hist w =
          h1 ++ ALog f (Fatalf "Failed to close connection: %s" [VErr (Some e)])
             :: h2 /\
          In (ACall CClose) h1 /\ ~ In ACancel h2 /\ ~ In (ACall CClose) h2
    | None =>
        1 = 0 /\ forall f fmt l, ~ In (ALog f (Fatalf fmt l)) (hist w)
    end.
Proof.
  do 3 eexists.
  split; [vm_compute; reflexivity|]. split; [vm_compute; reflexivity|].
  eapply (close_failure_is_fatal
            (env (session None None (Some (errorString "broken pipe"))))
            "" list_args full_run); vm_compute; reflexivity.
Defined.

(** ** The outcome handoff *)



(** ** The select of [run] *)

(** The context is cancelled before the trade client signals readiness,
    and [run], back from [Connect], evaluates its select after both: a
    handler is parked in its send on [ready] and [ctx.Done()] is closed,
    so both cases can proceed.  The select takes the readiness case, the
    command runs, and what [run] sends is the result of the command. *)
Lemma cancel_before_ready_may_dispatch :
  exists w,
    main (env (session None None None)) "" list_args late_select
    = Some (w, None) /\
    hist w =
    [ACall CConnect; ACancel; ASend ByOnReady ChReady None Blocked;
     ARecv ChReady None;
     ADispatch BList;
     ALog 3 (Println [VString "Trading ready: getting orders..."]);
     ACall (CGetOrders 1);
     ALog 3 (Println [VString "Orders:"; VStrings ["A1"; "A2"]]);
     ASend ByRun ChErr None Sent].
Proof. evaluate. Qed.

Lemma dispatch_once_after_ready_witness :
  exists app s0 st,
    startup (env (session None None None)) "" list_args = Running app s0 /\
    exec app s0 interrupted = Some st /\
    (List.length (dispatches (hist (world st))) <= 1)%nat /\
    gated (hist (world st)) /\
    (forall tr1 ev tr2 s1,
        interrupted = tr1 ++ ev :: tr2 -> exec app s0 tr1 = Some s1 ->
        run_pc s1 = RParked ->
        ev = EvMainSelectSignal \/ ev = EvMainSelectErr ->
        cancelled_run st) /\
    (In EvRunSelectDone interrupted -> cancelled_run st) /\
    (ctx_done st = true -> chan_values (ready st) = [] ->
     step app st EvRunSelectReady = None /\
     step app st EvRunSelectPark = None).
Proof.
  do 3 eexists. split; [vm_compute; reflexivity|].
  split; [vm_compute; reflexivity|].
  eapply (dispatch_once_after_ready (env (session None None None)) ""
            list_args _ _ interrupted); vm_compute; reflexivity.
Defined.

(** ** Unknown modes *)

Lemma invalid_request_never_connects_witness :
  exists w,
    main (env (session None None None)) "" bogus_args [] = Some (w, Some 1) /\
    (forall err, checkCliArgs bogus_args = Some err ->
                 @nil Event = [] /\ Some 1 = Some 1 /\
                 hist w = [ALog LstdFlags (Print [VErr (Some err)])] /\
                 ~ In CConnect (calls (hist w))) /\
    ~ In BDefault (dispatches (hist w)).
Proof.
  eexists. split; [vm_compute; reflexivity|].
  eapply (invalid_request_never_connects (env (session None None None)) ""
            bogus_args []).
  vm_compute; reflexivity.
Defined.

(** ** Placing an order *)

(** Two validated requests that differ in every argument but the mode
    and the market make the same call of [PlaceOrder], and no
    application at all places an order of amount "5". *)
Lemma place_ignores_request :
  let r1 := mkArgs false "place" 1 "" "" "" in
  let r2 := mkArgs true "place" 1 "exchange-key" "exchange-secret"
                   "sell 5 at 100" in
  let p := {| po_PriceParams := [ {| pp_Type := Absolute; pp_Value := "0.01" |} ];
              po_MarketID := 1; po_Amount := "0.01";
              po_OrderSide := Buy; po_OrderType := Limit |} in
  r1 <> r2 /\ checkCliArgs r1 = None /\ checkCliArgs r2 = None /\
  (exists w1 w2,
     main (env (session None None None)) "" r1
          [EvRunConnect; CbReady; EvRunSelectReady; EvRunDispatch]
          = Some (w1, None) /\
     main (env (session None None None)) "" r2
          [EvRunConnect; CbReady; EvRunSelectReady; EvRunDispatch]
          = Some (w2, None) /\
     calls (hist w1) = [CConnect; CPlaceOrder p] /\
     calls (hist w2) = [CConnect; CPlaceOrder p]) /\
  ~ exists app : TradeApp, po_Amount (place_params app) = "5".
Proof.
  cbv zeta. split; [discriminate|].
  split; [vm_compute; reflexivity|]. split; [vm_compute; reflexivity|]. split.
  - evaluate.
  - intros [app H]. discriminate H.
Qed.

(** ** A session that closes quietly *)

(** The connection attempt ends in "disconnected" with no error
    reported: nothing is sent to [errChan], [main] has not exited and
    cannot leave its select. *)
Lemma quiet_close_records_no_outcome :
  (exists w,
     main (env (session None None None)) "" verbose_args quiet_close
     = Some (w, None) /\
     hist w =
     [ACall CConnect;
      ALog 3 (Printf "State updated: %s -> %s"
                     [VString "disconnected"; VString "connecting"]);
      ALog 3 (Printf "State updated: %s -> %s"
                     [VString "connecting"; VString "disconnected"])]) /\
  main (env (session None None None)) "" verbose_args
       (quiet_close ++ [EvMainSelectErr]) = None /\
  main (env (session None None None)) "" verbose_args
       (quiet_close ++ [EvRunSelectReady]) = None /\
  main (env (session None None None)) "" verbose_args
       (quiet_close ++ [EvRunSelectDone]) = None.
Proof. evaluate. Qed.

Lemma no_outcome_while_quiet_witness :
  exists app s0 st,
    startup (env (session None None None)) "" verbose_args = Running app s0 /\
    forallb quiet quiet_close = true /\
    exec app s0 quiet_close = Some st /\
    exit_status st = None /\
    send_results ChErr (hist (world st)) = [] /\
    recvs_on ChErr (hist (world st)) = [] /\
    step app st EvMainSelectErr = None /\
    step app st EvMainSelectSignal = None /\
    step app st EvRunSelectDone = None /\
    step app st EvRunSelectReady = None /\
    step app st EvRunDispatch = None /\
    step app st EvRunSend = None.
Proof.
  do 3 eexists. split; [vm_compute; reflexivity|]. split; [vm_compute; reflexivity|].
  split; [vm_compute; reflexivity|].
  eapply (no_outcome_while_quiet (env (session None None None)) ""
            verbose_args _ _ quiet_close); vm_compute; reflexivity.
Defined.

(** ** Annotated state changes *)


(** * Properties of the stream client *)

Section StreamClientProperties.

Import StreamClient.

Context {imp : Imports}.

Lemma closes_app (o1 o2 : list Output) : closes (o1 ++ o2) = closes o1 ++ closes o2.
Proof. apply filter_app. Qed.

Lemma closes_on_state (oldState state : StreamState imp) (cause : goerror) :
  closes (on_state oldState state cause) = [].
Proof. destruct cause; reflexivity. Qed.

Lemma closes_on_message (fl : Flags) (msg : MarketUpdateMessage imp) :
  closes (on_message fl msg) = [].
Proof. reflexivity. Qed.

Lemma closes_close_report (c : MarketConn) : closes (close_report c) = [].
Proof. unfold close_report. destruct (Close c); reflexivity. Qed.

Lemma Inv_stream_step (fl : Flags) (c : MarketConn) (s s' : Run) (ev : Event) :
  Inv_stream c s -> step fl c s ev = Some s' -> Inv_stream c s'.
Proof.
  intros [Ia Ic Ir] H. unfold step in H.
  destruct (pc s) eqn:Hp; [| |discriminate];
    destruct ev as [| | |o n cause|msg]; try discriminate;
    try (destruct (interrupt s); [|discriminate]);
    inversion H; subst; clear H; constructor; cbn [pc out];
    rewrite ?closes_app, ?closes_on_state, ?closes_on_message,
      ?closes_close_report, ?app_nil_r;
    try (intros X; discriminate X); try (intros code X; discriminate X);
    auto.
  - intros _. rewrite (Ia eq_refl). reflexivity.
  - intros code X. inversion X; subst. split; [reflexivity|].
    split; [apply Ic; reflexivity|].
    intros e He. apply in_or_app. right. unfold close_report. rewrite He.
    left. reflexivity.
Qed.

Lemma Inv_stream_exec (fl : Flags) (c : MarketConn) (tr : list Event) :
  forall s s', Inv_stream c s -> exec fl c s tr = Some s' -> Inv_stream c s'.
Proof.
  induction tr as [|ev tr IH]; intros s s' I H; cbn in H.
  - inversion H; subst; exact I.
  - destruct (step fl c s ev) as [s1|] eqn:E; [|discriminate].
    eapply IH; [eapply Inv_stream_step; eassumption | exact H].
Qed.

(** [main] gets past its receive only after an interrupt. *)
Lemma past_receive_interrupted (fl : Flags) (c : MarketConn) (tr : list Event) :
  forall s s',
    pc s = AtReceive -> interrupt s = false ->
    exec fl c s tr = Some s' -> pc s' <> AtReceive -> In EvInterrupt tr.
Proof.
  induction tr as [|ev tr IH]; intros s s' Hp Hi H Hn; cbn in H.
  - inversion H; subst. contradiction.
  - unfold step in H. rewrite Hp in H.
    destruct ev as [| | |o n cause|msg]; [left; reflexivity | | | |];
      rewrite ?Hi in H; try discriminate H; right;
      (eapply (IH _ s'); [| |exact H|exact Hn]; cbn; auto).
Qed.

(** X15.  The stream client connects only to an address that parses and
    whose scheme is ws or wss; it then asks for a connection without TLS
    exactly when the scheme is ws, with reconnection after one second
    and the subscriptions of the command line.  Any other scheme ends the
    program through [log.Fatal] before a connection is set up.  The
    address is the first positional argument, the default one when there
    is none; further arguments are ignored. *)
Theorem stream_start_gate (env : Env) (fl : Flags) (args : list string) :
  (forall c o,
      start env fl args = Connected c o ->
      exists url,
        url_Parse env (address args) = (url, None) /\
        (Scheme url = "ws" \/ Scheme url = "wss") /\
        streamclient_NewMarketConn env (stream_params fl url) = (c, None) /\
        (sp_NoTLS (stream_params fl url) = true <-> Scheme url = "ws") /\
        sp_Reconnect (stream_params fl url) = true /\
        sp_ReconnectTimeout (stream_params fl url) = 1000000000 /\
        sp_Subscriptions (stream_params fl url) = subs fl /\
        o = [Printf "Connecting to %s ...\n" [VString (address args)];
             CallConnect]) /\
  (forall url,
      url_Parse env (address args) = (url, None) ->
      Scheme url <> "ws" -> Scheme url <> "wss" ->
      start env fl args = Failed [Fatal [VString scheme_message]]) /\
  (forall u rest, start env fl (u :: rest) = start env fl [u]) /\
  start env fl [] = start env fl [defaultURL].
Proof.
  split; [|split; [|split; [intros; reflexivity | reflexivity]]].
  - intros c o. unfold start.
    destruct (url_Parse env (address args)) as [url [e|]]; [discriminate|].
    destruct (String.eqb_spec (Scheme url) "ws") as [E1|N1];
      destruct (String.eqb_spec (Scheme url) "wss") as [E2|N2];
      cbn [negb andb]; try discriminate;
      (destruct (streamclient_NewMarketConn env (stream_params fl url))
         as [c0 [e|]] eqn:En; [discriminate|]);
      intros H; inversion H; subst; exists url;
      (split; [reflexivity|]); (split; [auto|]); (split; [exact En|]);
      (split; [cbn; split; intros X; try reflexivity; try assumption;
               try (apply String.eqb_eq in X; exact X);
               try (apply String.eqb_eq; exact X)|]);
      repeat split.
  - intros url Hp N1 N2. unfold start. rewrite Hp.
    apply String.eqb_neq in N1, N2. rewrite N1, N2. reflexivity.
Qed.

(** X16.  Once the stream client has connected it leaves only with
    status 0, whatever [Close] answers.  [Close] is called at most once,
    and only after an interrupt signal was delivered; when the program
    has left, [Close] was called and its failure, if any, was printed.
    After a failed start-up the status is 1 and [Close] was not
    called. *)
Theorem stream_exits_on_interrupt_only (env : Env) (fl : Flags)
  (args : list string) (tr : list Event) (o : list Output) (st : option Z) :
  main env fl args tr = Some (o, st) ->
  match start env fl args with
  | Failed o0 => st = Some 1 /\ o = o0 /\ closes o = []
  | Connected c o0 =>
      (st = None \/ st = Some 0) /\
      (closes o = [] \/ closes o = [CallClose] /\ In EvInterrupt tr) /\
      (st = Some 0 ->
       closes o = [CallClose] /\
       forall e,
         Close c = Some e ->
         In (Printf "Failed to close connection: %s" [VErr (Some e)]) o)
  end.
Proof.
  unfold main. destruct (start env fl args) as [o0|c o0] eqn:Hs.
  - destruct tr; [|discriminate]. intros H. inversion H; subst.
    split; [reflexivity|]. split; [reflexivity|].
    unfold start in Hs.
    destruct (url_Parse env (address args)) as [url [e|]];
      [inversion Hs; reflexivity|].
    destruct (negb _ && negb _); [inversion Hs; reflexivity|].
    destruct (streamclient_NewMarketConn env _) as [c0 [e|]];
      [inversion Hs; reflexivity | discriminate].
  - destruct (exec fl c (mkRun o0 false AtReceive) tr) as [s|] eqn:He;
      [|discriminate].
    intros H. inversion H; subst. clear H.
    assert (closes o0 = []) as Ho.
    { unfold start in Hs.
      destruct (url_Parse env (address args)) as [url [e|]]; [discriminate|].
      destruct (negb _ && negb _); [discriminate|].
      destruct (streamclient_NewMarketConn env _) as [c0 [e|]];
        [discriminate|]. inversion Hs; reflexivity. }
    assert (Inv_stream c (mkRun o0 false AtReceive)) as I0.
    { constructor; cbn; intros; try discriminate. exact Ho. }
    pose proof (Inv_stream_exec fl c tr _ _ I0 He) as [Ia Ic Ir].
    pose proof (past_receive_interrupted fl c tr (mkRun o0 false AtReceive) s
                  eq_refl eq_refl He) as Hi.
    unfold status. destruct (pc s) as [| |code] eqn:Hp.
    + split; [left; reflexivity|]. split; [left; apply Ia; reflexivity|].
      intros X; discriminate X.
    + split; [left; reflexivity|].
      split; [right; split; [apply Ic; reflexivity | apply Hi; discriminate]|].
      intros X; discriminate X.
    + destruct (Ir code eq_refl) as (-> & Hc & Hf).
      split; [right; reflexivity|].
      split; [right; split; [exact Hc | apply Hi; discriminate]|].
      intros _. split; assumption.
Qed.

End StreamClientProperties.


(** * Further examples *)

Import Cases.


Lemma calls_match_request_witness :
  exists w,
    main (env (session None None None)) "" cancel_args cancel_run
    = Some (w, Some 0) /\
    In (CCancelOrder cancel_order_7) (calls (hist w)) /\
    requested cancel_args (CCancelOrder cancel_order_7).
Proof.
  eexists. split; [vm_compute; reflexivity|].
  split; [vm_compute; right; left; reflexivity|].
  eapply (calls_match_request (env (session None None None)) "" cancel_args
            cancel_run).
  - vm_compute; reflexivity.
  - vm_compute. right. left. reflexivity.
Defined.

Lemma run_sends_command_result_witness :
  exists app s0 st,
    startup (env (session None None None)) "" list_args = Running app s0 /\
    exec app s0 full_run = Some st /\
    In None (sent_by_run (hist (world st))) /\
    sent_by_run (hist (world st)) = [None] /\
    (dispatches (hist (world st)) = [] /\ None = Some Canceled /\
     ctx_done st = true \/
     dispatches (hist (world st)) = [mode_branch (Mode list_args)] /\
     None = mode_result app).
Proof.
  do 3 eexists. split; [vm_compute; reflexivity|].
  split; [vm_compute; reflexivity|].
  split; [vm_compute; left; reflexivity|].
  eapply (run_sends_command_result (env (session None None None)) ""
            list_args _ _ full_run).
  - vm_compute; reflexivity.
  - vm_compute; reflexivity.
  - vm_compute. left. reflexivity.
Defined.

Lemma error_lines_without_verbose_witness :
  exists w,
    main (env (session None None None)) "" list_args
         (failed_session (errorString "transport drop")) = Some (w, Some 0) /\
    Verbose list_args = false /\
    error_lines (hist w) = non_nil (recvs_on ChErr (hist w)) /\
    (List.length (error_lines (hist w)) <= 1)%nat.
Proof.
  eexists. split; [vm_compute; reflexivity|]. split; [reflexivity|].
  eapply (error_lines_without_verbose (env (session None None None)) ""
            list_args (failed_session (errorString "transport drop")));
    vm_compute; reflexivity.
Defined.

Lemma usage_never_printed_witness :
  exists app s0 st,
    startup (env (session None None None)) "" list_args = Running app s0 /\
    exec app s0 full_run = Some st /\
    mode_result app <> Some errUnknownMode /\
    existsb reports_unknown_mode full_run = false /\
    ~ In AUsage (hist (world st)) /\
    ~ In (Some errUnknownMode) (sends_on ChErr (hist (world st))).
Proof.
  do 3 eexists. split; [vm_compute; reflexivity|].
  split; [vm_compute; reflexivity|].
  split; [vm_compute; discriminate|]. split; [vm_compute; reflexivity|].
  eapply (usage_never_printed (env (session None None None)) ""
            list_args _ _ full_run).
  - vm_compute; reflexivity.
  - vm_compute; reflexivity.
  - vm_compute; discriminate.
  - vm_compute; reflexivity.
Defined.

Lemma cancellation_never_received_witness :
  exists app s0 st1 st,
    startup (env (session None None None)) "" list_args = Running app s0 /\
    exec app s0 cancelled_early = Some st1 /\
    cancelled_run st1 /\
    exec app st1 [EvRunSend; EvMainClose] = Some st /\
    main_pc st1 <> MSelect /\
    recvs_on ChErr (hist (world st)) = recvs_on ChErr (hist (world st1)) /\
    step app st EvMainSelectErr = None.
Proof.
  do 4 eexists. split; [vm_compute; reflexivity|].
  split; [vm_compute; reflexivity|].
  split; [split; [vm_compute; reflexivity
                 |left; split; vm_compute; reflexivity]|].
  split; [vm_compute; reflexivity|].
  eapply (cancellation_never_received (env (session None None None)) ""
            list_args _ _ cancelled_early [EvRunSend; EvMainClose]).
  - vm_compute; reflexivity.
  - vm_compute; reflexivity.
  - split; [vm_compute; reflexivity | left; split; vm_compute; reflexivity].
  - vm_compute; reflexivity.
Defined.

Lemma operator_interrupt_exits_witness :
  exists app s0 st,
    startup (env (session None None None)) "" list_args = Running app s0 /\
    exec app s0 command_done = Some st /\
    main_pc st = MSelect /\
    exists st',
      exec app st interrupt_schedule = Some st' /\
      exit_status st' = Some (close_status app) /\
      hist (world st') =
      hist (world st) ++
      [ACancel; ALog (logFlags (world st)) (Printf "Closing connection..." []);
       ACall CClose]
      ++ close_tail (logFlags (world st)) (Close (client app)).
Proof.
  do 3 eexists. split; [vm_compute; reflexivity|].
  split; [vm_compute; reflexivity|]. split; [vm_compute; reflexivity|].
  eapply (operator_interrupt_exits (env (session None None None)) ""
            list_args _ _ command_done); vm_compute; reflexivity.
Defined.

Lemma state_change_takes_oldest_saved_witness :
  exists app s0 st st',
    startup (env (session None None None)) "" verbose_args = Running app s0 /\
    exec app s0 error_saved = Some st /\
    step app st (CbStateChange Established Disconnected) = Some st' /\
    hist (world st') =
    hist (world st) ++
    match chan_values (lastErrChan st) with
    | Some e :: _ =>
        [ARecv ChLastErr (Some e);
         ALog (logFlags (world st))
              (state_line_err Established Disconnected e)]
    | None :: _ =>
        [ARecv ChLastErr None;
         ALog (logFlags (world st)) (state_line Established Disconnected)]
    | [] => [ALog (logFlags (world st)) (state_line Established Disconnected)]
    end /\
    chan_values (lastErrChan st') = tl (chan_values (lastErrChan st)).
Proof.
  do 4 eexists. split; [vm_compute; reflexivity|].
  split; [vm_compute; reflexivity|]. split; [vm_compute; reflexivity|].
  eapply (state_change_takes_oldest_saved (env (session None None None)) ""
            verbose_args _ _ error_saved); vm_compute; reflexivity.
Defined.

Lemma saved_error_shown_on_next_state_change_witness :
  exists app s0 st,
    startup (env (session None None None)) "" verbose_args = Running app s0 /\
    exec app s0 connected = Some st /\
    Verbose verbose_args = true /\
    exit_status st = None /\
    chan_values (lastErrChan st) = [] /\
    exists st',
      exec app st [CbErrorVerbose 1 (Some (errorString "timeout")) true;
                   CbStateChange Established Disconnected] = Some st' /\
      hist (world st') =
      hist (world st) ++
      [ASend ByOnErrorVerbose ChLastErr (Some (errorString "timeout")) Sent;
       ARecv ChLastErr (Some (errorString "timeout"));
       ALog (logFlags (world st))
            (state_line_err Established Disconnected (errorString "timeout"))] /\
      chan_values (lastErrChan st') = [].
Proof.
  do 3 eexists. split; [vm_compute; reflexivity|].
  split; [vm_compute; reflexivity|]. split; [reflexivity|].
  split; [vm_compute; reflexivity|]. split; [vm_compute; reflexivity|].
  eapply (saved_error_shown_on_next_state_change
            (env (session None None None)) "" verbose_args _ _ connected);
    vm_compute; reflexivity.
Defined.

Lemma reported_error_ends_session_witness :
  exists app s0 st,
    startup (env (session None None None)) "" list_args = Running app s0 /\
    exec app s0 connected = Some st /\
    main_pc st = MSelect /\
    chan_values (errChan st) = [] /\
    exists st',
      exec app st [CbErrorOutcome 1 (Some (errorString "transport drop")) true;
                   EvMainSelectErr; EvMainClose] = Some st' /\
      exit_status st' = Some (close_status app) /\
      hist (world st') =
      hist (world st) ++
      [ASend ByOnError ChErr (Some (errorString "transport drop")) Sent;
       ARecv ChErr (Some (errorString "transport drop")); ACancel]
      ++ err_report (logFlags (world st)) (Some (errorString "transport drop"))
      ++ [ALog (logFlags (world st)) (Printf "Closing connection..." []);
          ACall CClose]
      ++ close_tail (logFlags (world st)) (Close (client app)).
Proof.
  do 3 eexists. split; [vm_compute; reflexivity|].
  split; [vm_compute; reflexivity|]. split; [vm_compute; reflexivity|].
  split; [vm_compute; reflexivity|].
  eapply (reported_error_ends_session (env (session None None None)) ""
            list_args _ _ connected); vm_compute; reflexivity.
Defined.

Lemma command_result_reaches_main_witness :
  exists app s0 st,
    startup (env (session None None None)) "" list_args = Running app s0 /\
    exec app s0 made_ready = Some st /\
    run_pc st = RReady /\
    main_pc st = MSelect /\
    chan_values (errChan st) = [] /\
    exists st',
      exec app st [EvRunDispatch; EvRunSend; EvMainSelectErr; EvMainClose]
      = Some st' /\
      exit_status st' = Some (close_status app) /\
      calls (hist (world st')) =
        calls (hist (world st)) ++ mode_call app ++ [CClose] /\
      sent_by_run (hist (world st')) = [mode_result app] /\
      recvs_on ChErr (hist (world st')) = [mode_result app] /\
      error_lines (hist (world st')) =
        error_lines (hist (world st)) ++ non_nil [mode_result app].
Proof.
  do 3 eexists. split; [vm_compute; reflexivity|].
  split; [vm_compute; reflexivity|]. split; [vm_compute; reflexivity|].
  split; [vm_compute; reflexivity|]. split; [vm_compute; reflexivity|].
  eapply (command_result_reaches_main (env (session None None None)) ""
            list_args _ _ made_ready); vm_compute; reflexivity.
Defined.

Lemma late_readiness_blocks_witness :
  exists app s0 st st' st'',
    startup (env (session None None None)) "" list_args = Running app s0 /\
    exec app s0 command_done = Some st /\
    (run_pc st = RReady \/ (exists v, run_pc st = RSending v) \/
     run_pc st = RDone) /\
    step app st CbReady = Some st' /\
    exec app st' [EvRunSend] = Some st'' /\
    hist (world st') =
      hist (world st) ++ [ASend ByOnReady ChReady None Blocked] /\
    recvs_on ChReady (hist (world st'')) = recvs_on ChReady (hist (world st)).
Proof.
  do 5 eexists. split; [vm_compute; reflexivity|].
  split; [vm_compute; reflexivity|].
  split; [right; left; eexists; vm_compute; reflexivity|].
  split; [vm_compute; reflexivity|]. split; [vm_compute; reflexivity|].
  eapply (late_readiness_blocks (env (session None None None)) ""
            list_args _ _ command_done [EvRunSend]).
  - vm_compute; reflexivity.
  - vm_compute; reflexivity.
  - right. left. eexists. vm_compute. reflexivity.
  - vm_compute; reflexivity.
  - vm_compute; reflexivity.
Defined.


Section StreamClientExamples.

Import StreamClient.
Import StreamClient.Sample.

Lemma stream_exits_on_interrupt_only_witness :
  exists o,
    main (env (Some (errorString "broken pipe"))) flags
         ["ws://localhost:8080/feed"] session = Some (o, Some 0) /\
    match start (env (Some (errorString "broken pipe"))) flags
                ["ws://localhost:8080/feed"] with
    | Failed o0 => Some 0 = Some 1 /\ o = o0 /\ closes o = []
    | Connected c o0 =>
        (Some 0 = None \/ Some 0 = Some 0) /\
        (closes o = [] \/ closes o = [CallClose] /\ In EvInterrupt session) /\
        (Some 0 = Some 0 ->
         closes o = [CallClose] /\
         forall e,
           Close c = Some e ->
           In (Printf "Failed to close connection: %s" [VErr (Some e)]) o)
    end.
Proof.
  eexists. split; [vm_compute; reflexivity|].
  apply (stream_exits_on_interrupt_only (env (Some (errorString "broken pipe")))
           flags ["ws://localhost:8080/feed"] session).
  vm_compute; reflexivity.
Defined.

End StreamClientExamples.

Lemma handlers_forward_reports_witness :
  exists app s0 st,
    startup (env (session None None None)) "" verbose_args = Running app s0 /\
    exec app s0 two_disconnects = Some st /\
    sends_on ChLastErr (hist (world st)) = saved_reports two_disconnects /\
    sent_by_on_error (hist (world st)) = outcome_reports two_disconnects /\
    subscription_lines (hist (world st)) = failed_reports two_disconnects.
Proof.
  do 3 eexists. split; [vm_compute; reflexivity|].
  split; [vm_compute; reflexivity|].
  eapply (handlers_forward_reports (env (session None None None)) ""
            verbose_args _ _ two_disconnects); vm_compute; reflexivity.
Defined.
